(** * amqp-client.js: the TCP socket client (src/amqp-socket-client.mjs)

    A shallow embedding of [AMQPClient]: the [onread] callback that cuts the
    broker's byte stream into AMQP frames, and the connect / send /
    closeSocket lifecycle around it.

    JavaScript numbers are modelled as [Z]: every quantity of the callback is
    an integer of magnitude far below 2^53, where the arithmetic of doubles
    is exact.  A byte is a [Z] in [0, 256); a Node [Buffer] is the list of
    its bytes. *)

From Stdlib Require Import ZArith Lia.
From stdpp Require Import base decidable option list strings.

Open Scope Z_scope.

(** The length of a list as the callback counts: a number. *)
Abbreviation len l := (Z.of_nat (length l)).

(** ** Values thrown inside the callback *)

(** The callback throws template strings; the constructors keep the values
    the templates interpolate.  [ERR_OUT_OF_RANGE] and [RangeError] are the
    errors of Node's [Buffer] methods and of the [DataView] constructor. *)
Inductive exn : Type :=
  | Copied0 (framePos bufPos bytesWritten : Z)
      (* `Copied 0 bytes framePos=.. bufPos=.. bytesWritten=..` *)
  | Copied0_report (frameSize framePos bufPos copyBytes bytesWritten : Z)
      (* `Copied 0 bytes, please report this bug, frameSize=.. ..` *)
  | ERR_OUT_OF_RANGE (argument : string)
  | RangeError (message : string).

Inductive completion (A : Type) : Type :=
  | Normal (a : A)
  | Throws (e : exn).
Arguments Normal {A} a.
Arguments Throws {A} e.

(** ** Node's Buffer *)

Module Buffer.

Definition t : Type := list Z.

Definition length (b : t) : Z := Z.of_nat (List.length b).

(** [b[i]]: [undefined] (here [None]) outside the buffer. *)
Definition get (b : t) (i : Z) : option Z :=
  if decide (i < 0) then None else b !! Z.to_nat i.

(** [b.subarray(start, start + n)] as a list, for in-range arguments. *)
Definition sub (b : t) (start n : Z) : list Z :=
  take (Z.to_nat n) (drop (Z.to_nat start) b).

(** JavaScript's ToInt32: the signed 32-bit wrap-around of [<<]. *)
Definition ToInt32 (z : Z) : Z := (z + 2 ^ 31) mod 2 ^ 32 - 2 ^ 31.

(** [b.readInt32BE(offset)]:
    [(first << 24) + this[++offset] * 2 ** 16 + this[++offset] * 2 ** 8 + last],
    a bounds error when [first] or [last] is [undefined]. *)
Definition readInt32BE (b : t) (offset : Z) : completion Z :=
  match get b offset, get b (offset + 1), get b (offset + 2), get b (offset + 3) with
  | Some first, Some b1, Some b2, Some last =>
      Normal (ToInt32 (Z.shiftl first 24) + b1 * 2 ^ 16 + b2 * 2 ^ 8 + last)
  | _, _, _, _ => Throws (ERR_OUT_OF_RANGE "offset")
  end.

(** [source.copy(target, targetStart, sourceStart, sourceEnd)].
    Negative arguments are range errors; an empty source range or a
    [targetStart] at or past the end of [target] copies nothing; otherwise
    the count is clamped to what [source] holds and to the room left in
    [target].  The result is the count and the new contents of [target]
    (the method writes [target] in place). *)
Definition copy (source target : t) (targetStart sourceStart sourceEnd : Z)
  : completion (Z * t) :=
  if decide (targetStart < 0) then Throws (ERR_OUT_OF_RANGE "targetStart")
  else if decide (sourceStart < 0) then Throws (ERR_OUT_OF_RANGE "sourceStart")
  else if decide (sourceEnd < 0) then Throws (ERR_OUT_OF_RANGE "sourceEnd")
  else if decide (length target <= targetStart \/ sourceEnd <= sourceStart)
    then Normal (0, target)
  else if decide (length source < sourceStart)
    then Throws (ERR_OUT_OF_RANGE "sourceStart")
  else
    let nb := Z.min (Z.min (sourceEnd - sourceStart) (length target - targetStart))
                    (length source - sourceStart) in
    Normal (nb, take (Z.to_nat targetStart) target
                  ++ sub source sourceStart nb
                  ++ drop (Z.to_nat (targetStart + nb)) target).

End Buffer.

(** ** The frame view handed to the protocol engine *)

Inductive backing : Type :=
  | ReadBuffer      (* a view over the socket's read buffer: no copy *)
  | FrameBuffer.    (* a view over the scratch [frameBuffer] *)

Record AMQPView : Type := mkView {
  view_over : backing;
  byteOffset : Z;
  byteLength : Z;
  view_bytes : list Z   (* what the view shows while [parseFrames] runs *)
}.

(** Modelled from the spec: [AMQPView] (amqp-view.mjs) is missing from src/.
    It is a read-only view over a sub-range of a buffer, exposing the bytes
    of one frame.  The source calls it with [DataView]'s arguments (storage,
    byte offset, byte length), so construction is taken with [DataView]'s
    range check.  Both buffers are made by [Buffer.allocUnsafe] with a size
    above the allocation pool's limit, so each owns its storage and
    [buf.byteOffset] is 0. *)
Definition new_AMQPView (over : backing) (storage : Buffer.t) (offset length : Z)
  : completion AMQPView :=
  if decide (offset < 0 \/ length < 0 \/ Buffer.length storage < offset + length)
  then Throws (RangeError "Invalid DataView length")
  else Normal (mkView over offset length (Buffer.sub storage offset length)).

(** ** The read callback (connectSocket, lines 51-109) *)

Module Detector.

(** [framePos], [frameSize] and [frameBuffer] are the closure variables of
    [connectSocket]; [bufPos] is the cursor of the running callback;
    [parsed] is the trace of [self.parseFrames(view)] calls, oldest first. *)
Record state : Type := mkState {
  framePos : Z;
  frameSize : Z;
  frameBuffer : Buffer.t;
  bufPos : Z;
  parsed : list AMQPView
}.

(** How one pass through the body of the [while] ends. *)
Inductive step : Type :=
  | Continue (s : state)          (* falls or jumps back to the loop test *)
  | Break (s : state)             (* [break] *)
  | Throw (e : exn) (s : state).  (* [throw], with the variables as they are *)

(** Modelled from the spec: [parseFrames] (amqp-base-client.mjs) is missing
    from src/.  The sink consumes each frame synchronously, in arrival
    order; here it records the view it is given. *)
Definition parseFrames (view : AMQPView) (s : state) : state :=
  mkState (framePos s) (frameSize s) (frameBuffer s) (bufPos s) (parsed s ++ [view]).

(** Lines 96-106: copy what the chunk has of the frame under construction
    into [frameBuffer]; dispatch it from there once it is complete. *)
Definition accumulate (bytesWritten : Z) (buf : Buffer.t) (s : state) : step :=
  let leftOfFrame := frameSize s - framePos s in
  let copyBytes := Z.min leftOfFrame (bytesWritten - bufPos s) in
  match Buffer.copy buf (frameBuffer s) (framePos s) (bufPos s) (bufPos s + copyBytes) with
  | Throws e => Throw e s
  | Normal (copied, fb) =>
      if decide (copied = 0)
      then Throw (Copied0_report (frameSize s) (framePos s) (bufPos s) copyBytes bytesWritten) s
      else
        let s1 := mkState (framePos s + copied) (frameSize s) fb
                          (bufPos s + copied) (parsed s) in
        if decide (framePos s1 = frameSize s1) then
          match new_AMQPView FrameBuffer fb 0 (frameSize s1) with
          | Throws e => Throw e s1
          | Normal view =>
              let s2 := parseFrames view s1 in
              Continue (mkState 0 0 (frameBuffer s2) (bufPos s2) (parsed s2))
          end
        else Continue s1
  end.

(** Lines 65-106: the body of [while (bufPos < bytesWritten)]. *)
Definition body (bytesWritten : Z) (buf : Buffer.t) (s : state) : step :=
  if decide (frameSize s = 0) then
    if decide (framePos s <> 0) then
      (* lines 68-75: a header begun by an earlier read *)
      match Buffer.copy buf (frameBuffer s) (framePos s) (bufPos s)
                        (bufPos s + 7 - framePos s) with
      | Throws e => Throw e s
      | Normal (copied, fb) =>
          if decide (copied = 0)
          then Throw (Copied0 (framePos s) (bufPos s) bytesWritten) s
          else
            let s1 := mkState (framePos s + copied) (frameSize s) fb
                              (bufPos s + copied) (parsed s) in
            match Buffer.readInt32BE fb 3 with
            | Throws e => Throw e s1
            | Normal n =>
                Continue (mkState (framePos s1) (n + 8) fb (bufPos s1) (parsed s1))
            end
      end
    else if decide (bufPos s + 3 + 4 > bytesWritten) then
      (* lines 77-82: fewer than 7 bytes left in this read *)
      match Buffer.copy buf (frameBuffer s) (framePos s) (bufPos s) bytesWritten with
      | Throws e => Throw e s
      | Normal (copied, fb) =>
          if decide (copied = 0)
          then Throw (Copied0 (framePos s) (bufPos s) bytesWritten) s
          else Break (mkState (framePos s + copied) (frameSize s) fb
                              (bufPos s) (parsed s))
      end
    else
      (* line 84 *)
      match Buffer.readInt32BE buf (bufPos s + 3) with
      | Throws e => Throw e s
      | Normal n =>
          let s1 := mkState (framePos s) (n + 8) (frameBuffer s) (bufPos s) (parsed s) in
          (* lines 87-93: the whole frame is in the read buffer *)
          if decide (bytesWritten - bufPos s1 >= frameSize s1) then
            match new_AMQPView ReadBuffer buf (0 + bufPos s1) (frameSize s1) with
            | Throws e => Throw e s1
            | Normal view =>
                let s2 := parseFrames view s1 in
                Continue (mkState 0 0 (frameBuffer s2)
                                  (bufPos s2 + frameSize s2) (parsed s2))
            end
          else accumulate bytesWritten buf s1
      end
  else accumulate bytesWritten buf s.

(** How a call of the callback ends, when it does. *)
Inductive exit : Type :=
  | Returned (s : state)          (* [return true] *)
  | Threw (e : exn) (s : state).

(** The [while] loop.  [fuel] bounds the number of passes through the body;
    [None] means that the loop is still running when the fuel is spent. *)
Fixpoint while (fuel : nat) (bytesWritten : Z) (buf : Buffer.t) (s : state)
  : option exit :=
  if decide (bufPos s < bytesWritten) then
    match fuel with
    | O => None
    | S fuel' =>
        match body bytesWritten buf s with
        | Continue s' => while fuel' bytesWritten buf s'
        | Break s' => Some (Returned s')
        | Throw e s' => Some (Threw e s')
        end
    end
  else Some (Returned s).

(** Line 61-109: [callback(bytesWritten, buf)], run on the closure
    variables and the trace left in [s]; [let bufPos = 0]. *)
Definition callback (fuel : nat) (bytesWritten : Z) (buf : Buffer.t) (s : state)
  : option exit :=
  while fuel bytesWritten buf
        (mkState (framePos s) (frameSize s) (frameBuffer s) 0 (parsed s)).

(** The socket writes each chunk at the start of the read buffer it was
    given ([onread.buffer]); the bytes behind the chunk stay as earlier
    reads, or the allocation, left them. *)
Definition receive (chunk : list Z) (readBuffer : Buffer.t) : Buffer.t :=
  chunk ++ drop (List.length chunk) readBuffer.

(** The reads of a connection, one callback per chunk, in order.  A throw
    ends the run. *)
Fixpoint feed (fuel : nat) (chunks : list (list Z)) (readBuffer : Buffer.t)
              (s : state) : option exit :=
  match chunks with
  | [] => Some (Returned s)
  | chunk :: rest =>
      let buf := receive chunk readBuffer in
      match callback fuel (Z.of_nat (List.length chunk)) buf s with
      | Some (Returned s') => feed fuel rest buf s'
      | r => r
      end
  end.

(** The variables as [connectSocket] initialises them (lines 51-53). *)
Definition initial (frameBuffer : Buffer.t) : state := mkState 0 0 frameBuffer 0 [].

Definition frames (s : state) : list (list Z) := map view_bytes (parsed s).

End Detector.

(** ** Promises *)

(** The values the promises of this file are settled with. *)
Inductive reason : Type :=
  | AMQPError (message : string)   (* [new AMQPError(err.message, this)] *)
  | Str (s : string)               (* a bare string, as [send] rejects with *)
  | Err (message : string).        (* an error object of the runtime *)

Inductive value : Type :=
  | Undefined
  | TheClient.                     (* the [AMQPBaseClient] itself *)

Module Promise.

Inductive t : Type :=
  | Pending
  | Fulfilled (v : value)
  | Rejected (r : reason).

(** The [resolve] and [reject] functions an executor is given: the first
    call of either settles the promise, every later call does nothing. *)
Definition resolve (v : value) (p : t) : t :=
  match p with Pending => Fulfilled v | _ => p end.

Definition reject (r : reason) (p : t) : t :=
  match p with Pending => Rejected r | _ => p end.

Definition settled (p : t) : Prop := p <> Pending.

End Promise.

(** ** The client (constructor, connect, connectSocket, send, closeSocket) *)

Module Client.

(** A [net.Socket] or [tls.TLSSocket], as far as this file drives it. *)
Record Socket : Type := mkSocket {
  secure : bool;                    (* made by [tls.connect] *)
  peer : string * Z;                (* [options.host], [options.port] *)
  servername : string;              (* [options.servername], for SNI *)
  reader : Detector.state;          (* the closure of [onread.callback] *)
  onread_buffer : Buffer.t;         (* [onread.buffer] *)
  on_error : list nat;              (* 'error' listeners, see [connect] *)
  queued : list (list Z * nat);     (* writes not yet called back, oldest
                                       first, each with the promise its
                                       callback settles *)
  ended : bool                      (* [end()] was called *)
}.

Record AMQPClient : Type := mkClient {
  tls : bool;
  host : string;
  port : Z;
  socket : option Socket;
  connectPromise : option nat       (* [[resolve, reject]] of that promise *)
}.

(** The client with the promises made so far ([promises], addressed by
    position) and what has reached the protocol engine's error channel.

    Modelled from the spec: the error channel belongs to the protocol
    engine (amqp-base-client.mjs, missing from src/); [engine_errors]
    lists the errors surfaced to it, oldest first. *)
Record world : Type := mkWorld {
  this : AMQPClient;
  promises : list Promise.t;
  engine_errors : list reason
}.

(** The parts of [new URL(url)] the constructor reads; [url_port] is
    [parseInt(u.port)], [None] for NaN. *)
Record URL : Type := mkURL {
  protocol : string;
  hostname : string;
  url_port : option Z
}.

(** Lines 16-29, without the arguments passed on to the base class. *)
Definition constructor (u : URL) : AMQPClient :=
  let tls := bool_decide (protocol u = "amqps:"%string) in
  mkClient tls
           (if decide (hostname u = ""%string) then "localhost"%string else hostname u)
           (match url_port u with
            | Some n => if decide (n = 0) then (if tls then 5671 else 5672) else n
            | None => if tls then 5671 else 5672
            end)
           None None.

Definition set_socket (sock : Socket) (w : world) : world :=
  mkWorld (mkClient (tls (this w)) (host (this w)) (port (this w))
                    (Some sock) (connectPromise (this w)))
          (promises w) (engine_errors w).

(** [new Promise(executor)]: the new promise sits at the end of the store. *)
Definition new_promise (p : Promise.t) (w : world) : nat * world :=
  (List.length (promises w), mkWorld (this w) (promises w ++ [p]) (engine_errors w)).

Definition settle (f : Promise.t -> Promise.t) (p : nat) (w : world) : world :=
  mkWorld (this w) (alter f p (promises w)) (engine_errors w).

(** Lines 50-116.  [frameBuffer] and [readBuffer] are what the two
    [Buffer.allocUnsafe] calls return.  The listener given to
    [tls.connect] / [net.connect] is [on_connect] below. *)
Definition connectSocket (frameBuffer readBuffer : Buffer.t) (c : AMQPClient) : Socket :=
  mkSocket (tls c) (host c, port c) (host c)
           (Detector.initial frameBuffer) readBuffer [] [] false.

(** Lines 35-45.  [connectSocket()] makes the socket, [Object.defineProperty]
    puts it in [this.socket], and the executor of the new promise runs at
    once: it adds the 'error' listener, which calls this promise's [reject],
    and stores the pair in [this.connectPromise]. *)
Definition connect (frameBuffer readBuffer : Buffer.t) (w : world) : nat * world :=
  let sock := connectSocket frameBuffer readBuffer (this w) in
  let p := List.length (promises w) in
  let sock' := mkSocket (secure sock) (peer sock) (servername sock) (reader sock)
                        (onread_buffer sock) (on_error sock ++ [p])
                        (queued sock) (ended sock) in
  (p, mkWorld (mkClient (tls (this w)) (host (this w)) (port (this w))
                        (Some sock') (Some p))
              (promises w ++ [Promise.Pending]) (engine_errors w)).

(** Lines 123-130.  [socket.write(bytes, undefined, cb)] hands the bytes to
    the transport; [cb] runs later ([write_done]). *)
Definition send (bytes : list Z) (w : world) : nat * world :=
  match socket (this w) with
  | Some sock =>
      let '(p, w') := new_promise Promise.Pending w in
      (p, set_socket (mkSocket (secure sock) (peer sock) (servername sock)
                               (reader sock) (onread_buffer sock) (on_error sock)
                               (queued sock ++ [(bytes, p)]) (ended sock)) w')
  | None => new_promise (Promise.Rejected (Str "Socket not connected")) w
  end.

(** Lines 135-137.  Returns [undefined]; the result is the world alone. *)
Definition closeSocket (w : world) : world :=
  match socket (this w) with
  | Some sock =>
      set_socket (mkSocket (secure sock) (peer sock) (servername sock)
                           (reader sock) (onread_buffer sock) (on_error sock)
                           (queued sock) true) w
  | None => w
  end.

(** What happens to a connected client. *)
Inductive event : Type :=
  | SocketConnect                        (* the socket is established *)
  | SocketError (message : string)       (* 'error' is emitted on the socket *)
  | WriteDone (err : option string)      (* the oldest write is called back *)
  | EngineResolve                        (* the engine: connectPromise[0](this) *)
  | EngineReject (r : reason).           (* the engine: connectPromise[1](err) *)

Definition preamble : list Z := [65; 77; 81; 80; 0; 0; 9; 1].

(** Lines 113, 115: [() => this.send(new Uint8Array([65, 77, 81, 80, 0, 0, 9, 1]))]. *)
Definition on_connect (w : world) : world := snd (send preamble w).

(** Line 42: [(err) => reject(new AMQPError(err.message, this))], once for
    each listener on the socket. *)
Definition on_socket_error (message : string) (w : world) : world :=
  match socket (this w) with
  | Some sock =>
      foldl (fun w p => settle (Promise.reject (AMQPError message)) p w) w (on_error sock)
  | None => w
  end.

(** Line 126: [(err) => err ? reject(err) : resolve()]. *)
Definition write_done (err : option string) (w : world) : world :=
  match socket (this w) with
  | Some sock =>
      match queued sock with
      | (_, p) :: rest =>
          let w' := set_socket (mkSocket (secure sock) (peer sock) (servername sock)
                                         (reader sock) (onread_buffer sock)
                                         (on_error sock) rest (ended sock)) w in
          match err with
          | Some m => settle (Promise.reject (Err m)) p w'
          | None => settle (Promise.resolve Undefined) p w'
          end
      | [] => w
      end
  | None => w
  end.

(** Modelled from the spec: the protocol engine (amqp-base-client.mjs,
    missing from src/) holds the stored pair and resolves the connect
    promise when the handshake completes, or rejects it. *)
Definition engine_settles (f : Promise.t -> Promise.t) (w : world) : world :=
  match connectPromise (this w) with
  | Some p => settle f p w
  | None => w
  end.

Definition handle (w : world) (e : event) : world :=
  match e with
  | SocketConnect => on_connect w
  | SocketError m => on_socket_error m w
  | WriteDone err => write_done err w
  | EngineResolve => engine_settles (Promise.resolve TheClient) w
  | EngineReject r => engine_settles (Promise.reject r) w
  end.

Definition run (events : list event) (w : world) : world := foldl handle w events.

(** A read of [chunk] on the socket: the callback runs on the socket's
    read buffer. *)
Definition on_read (fuel : nat) (chunk : list Z) (sock : Socket) : option Detector.exit :=
  Detector.callback fuel (Z.of_nat (List.length chunk))
                    (Detector.receive chunk (onread_buffer sock)) (reader sock).

End Client.

(** ** Reference values for the properties *)

(** The payload length as the wire layout gives it: the unsigned value of
    the four bytes at offset 3 of a header, most significant first. *)
Definition uint32BE (b3 b2 b1 b0 : Z) : Z :=
  b3 * 2 ^ 24 + b2 * 2 ^ 16 + b1 * 2 ^ 8 + b0.

(** What a test of the callback sees when a run ends: how it ended, then
    [framePos], [frameSize], [bufPos] and the bytes of the frames handed to
    [parseFrames]. *)
Definition observe (r : option Detector.exit)
  : option (option exn * (Z * Z * Z) * list (list Z)) :=
  match r with
  | Some (Detector.Returned s) =>
      Some (None, (Detector.framePos s, Detector.frameSize s, Detector.bufPos s),
            Detector.frames s)
  | Some (Detector.Threw e s) =>
      Some (Some e, (Detector.framePos s, Detector.frameSize s, Detector.bufPos s),
            Detector.frames s)
  | None => None
  end.

(** Buffers of the sizes [connectSocket] allocates, holding zeroes. *)
Definition zeroed (n : Z) : Buffer.t := repeat 0 (Z.to_nat n).
Definition readBuffer0 : Buffer.t := zeroed (128 * 1024).
Definition frameBuffer0 : Buffer.t := zeroed 16384.

(** A method frame on channel 1 with 8 bytes of payload (16 bytes). *)
Definition frame16 : list Z :=
  [1; 0; 1; 0; 0; 0; 8; 11; 12; 13; 14; 15; 16; 17; 18; 206].

(** A frame on channel 1 with 12 bytes of payload (20 bytes). *)
Definition frame20 : list Z :=
  [1; 0; 1; 0; 0; 0; 12; 0; 0; 0; 0; 0; 255; 255; 255; 254; 0; 0; 0; 206].

(** A body frame of 4096 bytes on channel 1, the smallest frame-max a
    broker may negotiate: payload length 4088 = 0x0FF8. *)
Definition frame4096 : list Z :=
  [3; 0; 1; 0; 0; 15; 248] ++ repeat 7 (Z.to_nat 4088) ++ [206].

(** A world before [connect()]: the constructor's client, no promise yet. *)
Definition fresh_world : Client.world :=
  Client.mkWorld (Client.constructor (Client.mkURL "amqp:" "broker" None)) [] [].

(** What holds of a client from [connect()] on, as long as [connect()] is
    not called again: [p] is the connect promise, its [reject] is the only
    'error' listener of the socket, and every write still awaiting its
    callback belongs to a younger promise. *)
Definition connected (p : nat) (w : Client.world) : Prop :=
  Client.connectPromise (Client.this w) = Some p /\
  (p < List.length (Client.promises w))%nat /\
  exists sock, Client.socket (Client.this w) = Some sock /\
               Client.on_error sock = [p] /\
               Forall (fun bq => (p < snd bq < List.length (Client.promises w))%nat) (Client.queued sock).

(** A frame as the wire layout gives it: seven header bytes, the last four
    the payload length, then payload and end marker; [length f] is the
    payload length plus 8. *)
Definition wire_frame (f : list Z) : Prop :=
  Forall (fun x => 0 <= x < 256) f /\
  exists type_ ch1 ch0 l3 l2 l1 l0 rest,
    f = [type_; ch1; ch0; l3; l2; l1; l0] ++ rest /\
    Z.of_nat (length f) = uint32BE l3 l2 l1 l0 + 8.

(** Where [n] more bytes lead, from [k] bytes into the first of the frames
    [fs] still to come. *)
Fixpoint advance (k : nat) (fs : list (list Z)) (n : nat) : nat * list (list Z) :=
  match fs with
  | [] => (0%nat, [])
  | f :: fs' =>
      if decide (k + n < length f)%nat then ((k + n)%nat, fs)
      else advance 0 fs' (k + n - length f)
  end.

(** No header is spread over more than two reads: a read that finds [k]
    header bytes buffered, 0 < k < 7, brings the missing [7 - k] bytes. *)
Fixpoint headers_in_two_reads (k : nat) (fs chunks : list (list Z)) : Prop :=
  match chunks with
  | [] => True
  | c :: cs =>
      ((0 < k < 7)%nat -> (7 - k <= length c)%nat) /\
      headers_in_two_reads (fst (advance k fs (length c)))
                           (snd (advance k fs (length c))) cs
  end.

(** How the variables of the callback stand [k] bytes into the frames [fs]
    still to come. *)
Definition tracks (k : nat) (fs : list (list Z)) (s : Detector.state) : Prop :=
  (k = 0%nat /\ Detector.framePos s = 0 /\ Detector.frameSize s = 0) \/
  exists f fs', fs = f :: fs' /\ (0 < k < length f)%nat /\
                Detector.framePos s = Z.of_nat k /\
                take k (Detector.frameBuffer s) = take k f /\
                Detector.frameSize s = if decide (k < 7)%nat then 0 else Z.of_nat (length f).

(** What a read of [n] bytes achieves from [k] bytes into the frames [fs],
    taking the variables from [s] to [s']: the variables stand at the
    advanced position, the frames dispatched so far and the frames still to
    come are the same stream, and the scratch buffer keeps its size. *)
Definition reassembled (cap : Z) (k : nat) (fs : list (list Z)) (n : nat)
    (s s' : Detector.state) : Prop :=
  tracks (fst (advance k fs n)) (snd (advance k fs n)) s' /\
  Detector.frames s' ++ snd (advance k fs n) = Detector.frames s ++ fs /\
  Buffer.length (Detector.frameBuffer s') = cap.

(** The variables as a pass, or a call of the callback, leaves them. *)
Definition step_state (st : Detector.step) : Detector.state :=
  match st with Detector.Continue s | Detector.Break s | Detector.Throw _ s => s end.

Definition exit_state (r : Detector.exit) : Detector.state :=
  match r with Detector.Returned s | Detector.Threw _ s => s end.

(** The variables after at most [n] passes of the [while] loop (lines
    64-107), whether or not the loop has ended by then: the loop of
    [Detector.while], stopped where it stands when the passes are spent. *)
Fixpoint after_passes (n : nat) (bytesWritten : Z) (buf : Buffer.t)
    (s : Detector.state) : Detector.state :=
  if decide (Detector.bufPos s < bytesWritten) then
    match n with
    | O => s
    | S n' =>
        match Detector.body bytesWritten buf s with
        | Detector.Continue s' => after_passes n' bytesWritten buf s'
        | Detector.Break s' => s'
        | Detector.Throw _ s' => s'
        end
    end
  else s.

(** A view handed to [parseFrames] by a callback on [bytesWritten] bytes of
    [buf] stays inside what it lies over: a view over the read buffer shows
    bytes of this read only; a view over the scratch buffer starts at 0 and
    is no longer than the buffer. *)
Definition view_in_bounds (bytesWritten : Z) (buf : Buffer.t) (capacity : Z)
    (v : AMQPView) : Prop :=
  match view_over v with
  | ReadBuffer =>
      0 <= byteOffset v /\ 0 <= byteLength v /\
      byteOffset v + byteLength v <= bytesWritten /\
      view_bytes v = Buffer.sub buf (byteOffset v) (byteLength v)
  | FrameBuffer =>
      byteOffset v = 0 /\ 0 < byteLength v <= capacity /\
      len (view_bytes v) = byteLength v
  end.


(** How many write callbacks are among the events. *)
Fixpoint write_callbacks (events : list Client.event) : nat :=
  match events with
  | [] => 0
  | Client.WriteDone _ :: events' => S (write_callbacks events')
  | _ :: events' => write_callbacks events'
  end.

(** What the callback of line 126 makes of the promise: [reject(err)] or
    [resolve()]. *)
Definition write_result (err : option string) : Promise.t :=
  match err with
  | Some m => Promise.Rejected (Err m)
  | None => Promise.Fulfilled Undefined
  end.

(** The write whose callback settles the pending promise [q] is the [i]-th
    of the queue, behind older writes and before younger ones. *)
Definition awaits (p q : nat) (i : nat) (w : Client.world) : Prop :=
  connected p w /\ (p < q)%nat /\ Client.promises w !! q = Some Promise.Pending /\
  exists sock front bytes back,
    Client.socket (Client.this w) = Some sock /\
    Client.queued sock = front ++ (bytes, q) :: back /\ length front = i /\
    Forall (fun bq => (snd bq < q)%nat) front /\
    Forall (fun bq => (q < snd bq)%nat) back.

(** The write that settles [q] was called back. *)
Definition written (p q : nat) (w : Client.world) : Prop :=
  connected p w /\ (p < q < length (Client.promises w))%nat /\
  exists sock,
    Client.socket (Client.this w) = Some sock /\
    Forall (fun bq => (q < snd bq)%nat) (Client.queued sock).

(** * Properties *)

(** ** Buffer primitives *)

Section BufferFacts.

Implicit Types (b source target : Buffer.t).

Lemma buffer_length_nonneg b : 0 <= Buffer.length b.
Proof. unfold Buffer.length. lia. Qed.

(** Inside the buffers, [copy] moves the least of the three counts and
    splices the bytes into the target. *)
Lemma copy_in_range source target targetStart sourceStart sourceEnd :
  0 <= targetStart < Buffer.length target ->
  0 <= sourceStart <= Buffer.length source ->
  sourceStart < sourceEnd ->
  Buffer.copy source target targetStart sourceStart sourceEnd =
    let nb := Z.min (Z.min (sourceEnd - sourceStart)
                           (Buffer.length target - targetStart))
                    (Buffer.length source - sourceStart) in
    Normal (nb, take (Z.to_nat targetStart) target
                  ++ Buffer.sub source sourceStart nb
                  ++ drop (Z.to_nat (targetStart + nb)) target).
Proof.
  intros Ht Hs Hlt. unfold Buffer.copy.
  repeat (case_decide; try lia). reflexivity.
Qed.

(** A target with no room left takes nothing. *)
Lemma copy_target_full source target targetStart sourceStart sourceEnd :
  Buffer.length target <= targetStart ->
  0 <= sourceStart -> 0 <= sourceEnd ->
  Buffer.copy source target targetStart sourceStart sourceEnd = Normal (0, target).
Proof.
  intros Ht Hs He. pose proof (buffer_length_nonneg target).
  unfold Buffer.copy. repeat (case_decide; try lia). reflexivity.
Qed.

Lemma get_sub b p n i x :
  0 <= p -> 0 <= i < n ->
  Buffer.sub b p n !! Z.to_nat i = Some x ->
  Buffer.get b (p + i) = Some x.
Proof.
  intros Hp Hi. unfold Buffer.sub, Buffer.get.
  rewrite lookup_take_lt by lia. rewrite lookup_drop.
  case_decide; [lia|]. intros <-. f_equal. lia.
Qed.

(** Reading where a known slice of the buffer lies: the four bytes taken as
    a two's-complement number. *)
Lemma readInt32BE_sub b p n k (b3 b2 b1 b0 : Z) :
  0 <= p -> 0 <= k -> k + 4 <= n ->
  Buffer.sub b p n !! Z.to_nat k = Some b3 ->
  Buffer.sub b p n !! Z.to_nat (k + 1) = Some b2 ->
  Buffer.sub b p n !! Z.to_nat (k + 2) = Some b1 ->
  Buffer.sub b p n !! Z.to_nat (k + 3) = Some b0 ->
  0 <= b3 < 256 -> 0 <= b2 < 256 -> 0 <= b1 < 256 -> 0 <= b0 < 256 ->
  Buffer.readInt32BE b (p + k) =
    Normal (if decide (uint32BE b3 b2 b1 b0 < 2 ^ 31)
            then uint32BE b3 b2 b1 b0
            else uint32BE b3 b2 b1 b0 - 2 ^ 32).
Proof.
  intros Hp Hk Hn G3 G2 G1 G0 H3 H2 H1 H0.
  apply get_sub in G3, G2, G1, G0; try lia.
  unfold Buffer.readInt32BE.
  replace (p + k + 1) with (p + (k + 1)) by lia.
  replace (p + k + 2) with (p + (k + 2)) by lia.
  replace (p + k + 3) with (p + (k + 3)) by lia.
  rewrite G3, G2, G1, G0.
  f_equal. unfold Buffer.ToInt32, uint32BE.
  rewrite Z.shiftl_mul_pow2 by lia.
  case_decide.
  - rewrite Z.mod_small by lia. lia.
  - replace (b3 * 2 ^ 24 + 2 ^ 31) with (b3 * 2 ^ 24 - 2 ^ 31 + 1 * 2 ^ 32) by lia.
    rewrite Z.mod_add by lia. rewrite Z.mod_small by lia. lia.
Qed.

Lemma get_in_range b i :
  0 <= i < Buffer.length b -> exists x, Buffer.get b i = Some x.
Proof.
  intros Hi. unfold Buffer.get, Buffer.length in *.
  rewrite decide_False by lia.
  apply lookup_lt_is_Some_2. lia.
Qed.

(** Four bytes inside the buffer always read as a number. *)
Lemma readInt32BE_defined b p :
  0 <= p -> p + 4 <= Buffer.length b -> exists n, Buffer.readInt32BE b p = Normal n.
Proof.
  intros Hp Hlen. unfold Buffer.readInt32BE.
  destruct (get_in_range b p) as [x0 ->]; [lia|].
  destruct (get_in_range b (p + 1)) as [x1 ->]; [lia|].
  destruct (get_in_range b (p + 2)) as [x2 ->]; [lia|].
  destruct (get_in_range b (p + 3)) as [x3 ->]; [lia|].
  eexists. reflexivity.
Qed.

End BufferFacts.

(** ** The read callback *)

Section CallbackFacts.

Import Detector.

Implicit Types (s : state) (buf : Buffer.t).

Lemma sub_length buf p n :
  0 <= p -> 0 <= n -> p + n <= Buffer.length buf ->
  Z.of_nat (List.length (Buffer.sub buf p n)) = n.
Proof.
  unfold Buffer.sub, Buffer.length. intros Hp Hn Hle.
  rewrite length_take, length_drop. lia.
Qed.

(** Writing [n] bytes inside a buffer keeps its size. *)
Lemma spliced_length (target : Buffer.t) buf at_ p n :
  0 <= at_ -> 0 <= p -> 0 <= n ->
  at_ + n <= Buffer.length target -> p + n <= Buffer.length buf ->
  Buffer.length (take (Z.to_nat at_) target ++ Buffer.sub buf p n
                   ++ drop (Z.to_nat (at_ + n)) target)
  = Buffer.length target.
Proof.
  intros Ha Hp Hn Ht Hb.
  pose proof (sub_length buf p n Hp Hn Hb) as Hsub.
  unfold Buffer.length in *.
  rewrite !length_app, length_take, length_drop. lia.
Qed.

(** The slow path on a frame that fits the scratch buffer. *)
Lemma accumulate_in_range bytesWritten buf s :
  0 <= bufPos s < bytesWritten -> bytesWritten <= Buffer.length buf ->
  0 <= framePos s < frameSize s -> frameSize s <= Buffer.length (frameBuffer s) ->
  let n := Z.min (frameSize s - framePos s) (bytesWritten - bufPos s) in
  let fb := take (Z.to_nat (framePos s)) (frameBuffer s)
              ++ Buffer.sub buf (bufPos s) n
              ++ drop (Z.to_nat (framePos s + n)) (frameBuffer s) in
  accumulate bytesWritten buf s =
    Continue (if decide (framePos s + n = frameSize s)
              then mkState 0 0 fb (bufPos s + n)
                     (parsed s ++ [mkView FrameBuffer 0 (frameSize s)
                                          (Buffer.sub fb 0 (frameSize s))])
              else mkState (framePos s + n) (frameSize s) fb (bufPos s + n) (parsed s)).
Proof.
  intros Hb Hbw Hf Hcap n fb. unfold accumulate. fold n.
  rewrite copy_in_range by lia. cbv zeta.
  replace (Z.min (Z.min (bufPos s + n - bufPos s)
                        (Buffer.length (frameBuffer s) - framePos s))
                 (Buffer.length buf - bufPos s)) with n by lia.
  fold fb.
  rewrite decide_False by lia. cbn [framePos frameSize].
  case_decide as Hdone; [|reflexivity].
  unfold new_AMQPView.
  assert (Hlen : Buffer.length fb = Buffer.length (frameBuffer s)).
  { apply spliced_length; lia. }
  rewrite decide_False by lia. reflexivity.
Qed.

(** [copy] never reports a negative count. *)
Lemma copy_count_nonneg (source target target' : Buffer.t) targetStart sourceStart sourceEnd n :
  Buffer.copy source target targetStart sourceStart sourceEnd = Normal (n, target') ->
  0 <= n.
Proof.
  unfold Buffer.copy. pose proof (buffer_length_nonneg source).
  repeat case_decide; intros [= <- _]; lia.
Qed.

(** X4.  A pass that hands a frame to [parseFrames] hands over exactly one and
    leaves [framePos] and [frameSize] at 0, on the fast path and on the
    slow path alike; a pass that breaks or throws hands over none. *)
Theorem body_dispatch_resets bytesWritten buf s :
  match body bytesWritten buf s with
  | Continue s' =>
      parsed s' = parsed s \/
      exists view, parsed s' = parsed s ++ [view] /\ framePos s' = 0 /\ frameSize s' = 0
  | Break s' | Throw _ s' => parsed s' = parsed s
  end.
Proof.
  destruct (body bytesWritten buf s) as [s'|s'|e s'] eqn:Hbody; revert Hbody;
    unfold body, accumulate, parseFrames;
    repeat (case_decide || case_match); try discriminate;
    intros; simplify_eq; cbn; eauto.
Qed.

(** A pass that continues has moved the cursor forward, unless it read a
    frame size of 0 at a frame boundary. *)
Lemma body_progress bytesWritten buf s s' :
  body bytesWritten buf s = Continue s' ->
  bufPos s < bufPos s' \/
  (frameSize s = 0 /\ framePos s = 0 /\ bufPos s + 7 <= bytesWritten /\
   Buffer.readInt32BE buf (bufPos s + 3) = Normal (-8)).
Proof.
  unfold body, accumulate, parseFrames, new_AMQPView.
  repeat (case_decide || case_match); cbn in *; intros [= <-]; cbn;
    try match goal with
        | H : Buffer.copy _ _ _ _ _ = Normal _ |- _ => apply copy_count_nonneg in H
        end;
    try (left; lia).
  destruct (decide (a + 8 = 0)) as [Hz|Hz]; [right | left; lia].
  repeat split; try assumption; try lia.
  f_equal. lia.
Qed.

(** X5.  A frame larger than the scratch buffer, once the buffer is full: the
    copy has no room, moves nothing, and the third guard throws. *)
Theorem accumulate_scratch_full bytesWritten buf s :
  Buffer.length (frameBuffer s) <= framePos s ->
  0 <= bufPos s < bytesWritten -> framePos s < frameSize s ->
  accumulate bytesWritten buf s =
    Throw (Copied0_report (frameSize s) (framePos s) (bufPos s)
             (Z.min (frameSize s - framePos s) (bytesWritten - bufPos s))
             bytesWritten) s.
Proof.
  intros Hfull Hbuf Hleft. unfold accumulate.
  rewrite copy_target_full by lia.
  rewrite decide_True by reflexivity. reflexivity.
Qed.

Lemma while_terminates bytesWritten buf (fuel : nat) s :
  (forall p, 0 <= p -> p + 7 <= bytesWritten ->
             Buffer.readInt32BE buf (p + 3) <> Normal (-8)) ->
  0 <= bufPos s -> bytesWritten - bufPos s <= Z.of_nat fuel ->
  exists r, while fuel bytesWritten buf s = Some r.
Proof.
  intros Hsize. revert s.
  induction fuel as [|fuel IH]; intros s Hpos Hfuel; cbn [while].
  - rewrite decide_False by lia. eauto.
  - case_decide as Hloop; [|eauto].
    destruct (body bytesWritten buf s) as [s'|s'|e s'] eqn:Hbody; [|eauto..].
    apply body_progress in Hbody as [Hadv | (_ & _ & H7 & Hread)].
    + apply IH; lia.
    + contradiction (Hsize (bufPos s) Hpos H7 Hread).
Qed.

(** X3.  The callback returns or throws within [bytesWritten] passes of its loop
    on every chunk in which no header position reads as a frame of size 0
    (a length field of 0xFFFFFFF8). *)
Theorem callback_terminates (bytesWritten : Z) (buf : Buffer.t) (s : state) :
  (forall p, 0 <= p -> p + 7 <= bytesWritten ->
             Buffer.readInt32BE buf (p + 3) <> Normal (-8)) ->
  exists r, callback (Z.to_nat bytesWritten) bytesWritten buf s = Some r.
Proof.
  intros Hsize. unfold callback.
  apply while_terminates; [exact Hsize | cbn; lia | cbn; lia].
Qed.

End CallbackFacts.

Lemma accumulate_scratch_full_witness :
  Detector.accumulate 3 readBuffer0 (Detector.mkState 16384 65544 frameBuffer0 0 [])
  = Detector.Throw
      (Copied0_report 65544 16384 0 (Z.min (65544 - 16384) (3 - 0)) 3)
      (Detector.mkState 16384 65544 frameBuffer0 0 []).
Proof.
  apply (accumulate_scratch_full 3 readBuffer0
           (Detector.mkState 16384 65544 frameBuffer0 0 []));
    [vm_compute; discriminate | split; [discriminate | reflexivity] | reflexivity].
Defined.

Lemma callback_terminates_witness :
  exists r,
    Detector.callback (Z.to_nat 16) 16 (Detector.receive frame16 readBuffer0)
                      (Detector.initial frameBuffer0) = Some r.
Proof.
  apply callback_terminates.
  intros p Hp0 Hp7.
  assert (Hp : p = 0 \/ p = 1 \/ p = 2 \/ p = 3 \/ p = 4 \/ p = 5 \/ p = 6 \/
               p = 7 \/ p = 8 \/ p = 9) by lia.
  repeat (destruct Hp as [-> | Hp]); try subst p; vm_compute; discriminate.
Defined.


(** ** Reassembly when no header takes more than two reads *)

Section Reassembly.

Import Detector.

Lemma wire_frame_length f : wire_frame f -> (8 <= length f)%nat.
Proof.
  intros (Hbytes & t & c1 & c0 & l3 & l2 & l1 & l0 & rest & -> & Hlen).
  apply Forall_app in Hbytes as [Hh _].
  repeat (apply Forall_cons in Hh as [? Hh]).
  unfold uint32BE in Hlen. lia.
Qed.

Lemma wire_frame_decode f (b : Buffer.t) p :
  wire_frame f -> Z.of_nat (length f) < 2 ^ 31 -> 0 <= p ->
  Buffer.sub b p 7 = take 7 f ->
  Buffer.readInt32BE b (p + 3) = Normal (Z.of_nat (length f) - 8).
Proof.
  intros (Hbytes & t & c1 & c0 & l3 & l2 & l1 & l0 & rest & -> & Hlen) Hsmall Hp Hsub.
  apply Forall_app in Hbytes as [Hh _].
  repeat (apply Forall_cons in Hh as [? Hh]).
  cbn [take app] in Hsub.
  rewrite (readInt32BE_sub b p 7 3 l3 l2 l1 l0);
    try lia; try (rewrite Hsub; reflexivity).
  rewrite decide_True by lia. f_equal. lia.
Qed.

Lemma sub_middle (pre r stale : list Z) (m : Z) :
  m <= len r ->
  Buffer.sub (pre ++ r ++ stale) (len pre) m = take (Z.to_nat m) r.
Proof.
  intros Hm. unfold Buffer.sub. rewrite Nat2Z.id.
  rewrite drop_app_length. apply take_app_le. lia.
Qed.

Lemma length_middle (pre r stale : list Z) :
  len pre + len r <= Buffer.length (pre ++ r ++ stale).
Proof. unfold Buffer.length. rewrite !length_app. lia. Qed.

(** Fresh frame boundary, fewer than 7 bytes left in the read. *)
Lemma pass_short_header (pre r stale : list Z) s :
  framePos s = 0 -> frameSize s = 0 -> bufPos s = len pre ->
  (0 < length r < 7)%nat -> 7 <= Buffer.length (frameBuffer s) ->
  body (len pre + len r) (pre ++ r ++ stale) s =
    Break (mkState (len r) 0 (r ++ drop (length r) (frameBuffer s)) (len pre) (parsed s)).
Proof.
  intros Hpos Hsize Hbuf Hr Hcap. unfold body.
  rewrite decide_True by exact Hsize.
  rewrite decide_False by lia.
  rewrite decide_True by lia.
  pose proof (length_middle pre r stale).
  rewrite copy_in_range by lia. cbv zeta.
  rewrite Hpos, Hsize, Hbuf.
  replace (Z.min (Z.min (len pre + len r - len pre) (Buffer.length (frameBuffer s) - 0))
                 (Buffer.length (pre ++ r ++ stale) - len pre)) with (len r) by lia.
  rewrite sub_middle by lia. rewrite (take_ge r) by lia.
  rewrite decide_False by lia.
  cbn [Z.to_nat take app]. rewrite Z.add_0_l, Nat2Z.id. reflexivity.
Qed.

(** Fresh frame boundary, the whole frame is in the read. *)
Lemma pass_whole_frame (pre f r' stale : list Z) s :
  framePos s = 0 -> frameSize s = 0 -> bufPos s = len pre ->
  wire_frame f -> len f < 2 ^ 31 ->
  exists view,
    view_bytes view = f /\
    body (len pre + (len f + len r')) (pre ++ (f ++ r') ++ stale) s =
      Continue (mkState 0 0 (frameBuffer s) (len pre + len f) (parsed s ++ [view])).
Proof.
  intros Hpos Hsize Hbuf Hf Hsmall.
  pose proof (wire_frame_length f Hf) as H8.
  pose proof (length_middle pre (f ++ r') stale) as Hlen. rewrite length_app in Hlen.
  eexists. split; [|unfold body].
  2:{ rewrite decide_True by exact Hsize.
      rewrite decide_False by lia.
      rewrite decide_False by lia.
      rewrite Hbuf.
      rewrite (wire_frame_decode f) by
        (try assumption; try lia;
         rewrite (sub_middle pre (f ++ r') stale 7) by (rewrite length_app; lia);
         apply (take_app_le f r' 7); lia).
      cbn [framePos frameSize frameBuffer bufPos parsed].
      replace (len f - 8 + 8) with (len f) by lia.
      rewrite decide_True by lia.
      unfold new_AMQPView. rewrite decide_False by lia.
      unfold parseFrames. cbn [framePos frameSize frameBuffer bufPos parsed].
      reflexivity. }
  cbn [view_bytes]. rewrite Z.add_0_l.
  rewrite (sub_middle pre (f ++ r') stale (len f)) by (rewrite length_app; lia).
  rewrite Nat2Z.id, take_app_length. reflexivity.
Qed.

(** The slow path on a frame of which [a] is buffered and the read brings
    [x], not yet the end of the frame. *)
Lemma accumulate_part (pre x stale a g2 : list Z) s :
  framePos s = len a -> frameSize s = len (a ++ x ++ g2) -> bufPos s = len pre ->
  take (length a) (frameBuffer s) = a ->
  (0 < length x)%nat -> (0 < length g2)%nat ->
  len (a ++ x ++ g2) <= Buffer.length (frameBuffer s) ->
  accumulate (len pre + len x) (pre ++ x ++ stale) s =
    Continue (mkState (len (a ++ x)) (len (a ++ x ++ g2))
                (a ++ x ++ drop (length (a ++ x)) (frameBuffer s))
                (len pre + len x) (parsed s)).
Proof.
  intros Hpos Hsize Hbuf Ha Hx Hg Hcap. rewrite !length_app in *.
  pose proof (length_middle pre x stale).
  rewrite accumulate_in_range by lia. cbv zeta.
  rewrite Hpos, Hsize, Hbuf.
  rewrite Z.min_r by lia.
  replace (len pre + len x - len pre) with (len x) by lia.
  rewrite decide_False by lia.
  rewrite sub_middle by lia. rewrite (take_ge x) by lia.
  rewrite !Nat2Z.id, Ha.
  repeat f_equal; lia.
Qed.

(** The slow path on a frame of which [a] is buffered and the read brings
    the rest [g]. *)
Lemma accumulate_rest (pre g r' stale a : list Z) s :
  framePos s = len a -> frameSize s = len (a ++ g) -> bufPos s = len pre ->
  take (length a) (frameBuffer s) = a ->
  (0 < length g)%nat ->
  len (a ++ g) <= Buffer.length (frameBuffer s) ->
  exists view,
    view_bytes view = a ++ g /\
    accumulate (len pre + (len g + len r')) (pre ++ (g ++ r') ++ stale) s =
      Continue (mkState 0 0 (a ++ g ++ drop (length (a ++ g)) (frameBuffer s))
                  (len pre + len g) (parsed s ++ [view])).
Proof.
  intros Hpos Hsize Hbuf Ha Hg Hcap. rewrite !length_app in *.
  pose proof (length_middle pre (g ++ r') stale) as Hlen. rewrite length_app in Hlen.
  rewrite accumulate_in_range by lia. cbv zeta.
  rewrite Hpos, Hsize, Hbuf.
  rewrite Z.min_l by lia.
  replace (Z.of_nat (length a + length g) - len a) with (len g) by lia.
  rewrite decide_True by lia.
  rewrite (sub_middle pre (g ++ r') stale (len g)) by (rewrite length_app; lia).
  rewrite !Nat2Z.id, take_app_length, Ha.
  replace (Z.to_nat (len a + len g)) with (length a + length g)%nat by lia.
  eexists. split; [|reflexivity]. cbn [view_bytes].
  unfold Buffer.sub. cbn [Z.to_nat drop].
  change (Z.to_nat 0) with 0%nat. rewrite drop_0.
  rewrite Nat2Z.id, <- length_app, (app_assoc a g), take_app_length. reflexivity.
Qed.

(** Fresh frame boundary, at least the header but not the whole frame is in
    the read. *)
Lemma pass_frame_start (pre x stale g2 : list Z) s :
  framePos s = 0 -> frameSize s = 0 -> bufPos s = len pre ->
  wire_frame (x ++ g2) -> len (x ++ g2) < 2 ^ 31 ->
  (7 <= length x)%nat -> (0 < length g2)%nat ->
  len (x ++ g2) <= Buffer.length (frameBuffer s) ->
  body (len pre + len x) (pre ++ x ++ stale) s =
    Continue (mkState (len x) (len (x ++ g2))
                (x ++ drop (length x) (frameBuffer s))
                (len pre + len x) (parsed s)).
Proof.
  intros Hpos Hsize Hbuf Hf Hsmall Hx Hg Hcap. unfold body.
  rewrite decide_True by exact Hsize.
  rewrite decide_False by lia.
  rewrite decide_False by lia.
  rewrite Hbuf.
  rewrite (wire_frame_decode (x ++ g2)) by
    (try assumption; try lia;
     rewrite (sub_middle pre x stale 7) by lia;
     symmetry; apply (take_app_le x g2 7); lia).
  cbn [framePos frameSize frameBuffer bufPos parsed].
  replace (len (x ++ g2) - 8 + 8) with (len (x ++ g2)) by lia.
  rewrite length_app in Hcap |- *.
  rewrite decide_False by lia.
  rewrite (accumulate_part pre x stale [] g2); cbn [framePos frameSize frameBuffer bufPos parsed];
    try reflexivity; try assumption; try lia.
  - cbn [app]. rewrite length_app. reflexivity.
  - cbn [app]. rewrite length_app. reflexivity.
  - cbn [app]. rewrite length_app. exact Hcap.
Qed.

Lemma sub_front (h t : list Z) : Buffer.sub (h ++ t) 0 (len h) = h.
Proof.
  unfold Buffer.sub. change (Z.to_nat 0) with 0%nat.
  rewrite drop_0, Nat2Z.id. apply take_app_length.
Qed.

(** A header begun by the previous read, completed by this one. *)
Lemma pass_header_rest (h r1 stale a g : list Z) bytesWritten s :
  framePos s = len a -> frameSize s = 0 -> bufPos s = 0 ->
  take (length a) (frameBuffer s) = a ->
  wire_frame (a ++ h ++ g) -> len (a ++ h ++ g) < 2 ^ 31 ->
  (0 < length a)%nat -> (0 < length h)%nat -> (length a + length h = 7)%nat ->
  7 <= Buffer.length (frameBuffer s) ->
  body bytesWritten (h ++ r1 ++ stale) s =
    Continue (mkState 7 (len (a ++ h ++ g))
                (a ++ h ++ drop 7 (frameBuffer s)) (len h) (parsed s)).
Proof.
  intros Hpos Hsize Hbuf Ha Hf Hsmall Hk Hh H7 Hcap. unfold body.
  rewrite decide_True by exact Hsize.
  rewrite decide_True by lia.
  pose proof (length_middle [] h (r1 ++ stale)) as Hlen. cbn [app length] in Hlen.
  rewrite copy_in_range by lia. cbv zeta. rewrite Hpos, Hbuf.
  rewrite Z.min_l by lia. rewrite Z.min_l by lia.
  replace (0 + 7 - len a - 0) with (len h) by lia.
  rewrite sub_front. rewrite Nat2Z.id, Ha.
  replace (Z.to_nat (len a + len h)) with 7%nat by lia.
  rewrite decide_False by lia.
  change 3 with (0 + 3).
  rewrite (wire_frame_decode (a ++ h ++ g)); try assumption; try lia.
  - cbn [framePos frameSize frameBuffer bufPos parsed].
    repeat f_equal; lia.
  - unfold Buffer.sub.
    change (Z.to_nat 0) with 0%nat. change (Z.to_nat 7) with 7%nat.
    rewrite drop_0, (app_assoc a h g), (app_assoc a h (drop 7 _)).
    rewrite (take_app_le (a ++ h) g 7) by (rewrite length_app; lia).
    rewrite (take_app_le (a ++ h) (drop 7 (frameBuffer s)) 7) by (rewrite length_app; lia).
    reflexivity.
Qed.

(** Inside a frame whose size is known, body is the slow path. *)
Lemma body_known_size bytesWritten buf s :
  frameSize s <> 0 -> body bytesWritten buf s = accumulate bytesWritten buf s.
Proof. intros Hsize. unfold body. rewrite decide_False by exact Hsize. reflexivity. Qed.

(** *** Positions in the stream *)

Lemma advance_shift k k' fs m n :
  (k + m = k')%nat -> advance k fs (m + n) = advance k' fs n.
Proof.
  intros <-. destruct fs as [|f fs']; [reflexivity|]. cbn [advance].
  replace (k + (m + n))%nat with (k + m + n)%nat by lia. reflexivity.
Qed.

Lemma advance_within k f fs' n :
  (k + n < length f)%nat -> advance k (f :: fs') n = ((k + n)%nat, f :: fs').
Proof. intros Hlt. cbn [advance]. rewrite decide_True by exact Hlt. reflexivity. Qed.

Lemma advance_frame_end k f fs' m n :
  (k + m = length f)%nat -> advance k (f :: fs') (m + n) = advance 0 fs' n.
Proof.
  intros Hend. cbn [advance]. rewrite decide_False by lia.
  f_equal. lia.
Qed.

Lemma advance_stay k fs :
  Forall wire_frame fs ->
  (k = 0%nat \/ exists f fs', fs = f :: fs' /\ (k < length f)%nat) ->
  advance k fs 0 = (k, fs).
Proof.
  intros Hfs [-> | (f & fs' & -> & Hk)].
  - destruct fs as [|f fs']; [reflexivity|].
    apply Forall_cons in Hfs as [Hf _]. apply wire_frame_length in Hf.
    rewrite advance_within by lia. reflexivity.
  - rewrite advance_within by lia. f_equal. lia.
Qed.

Lemma advance_add fs : forall k n m,
  advance k fs (n + m) =
  advance (fst (advance k fs n)) (snd (advance k fs n)) m.
Proof.
  induction fs as [|f fs' IH]; intros k n m; [reflexivity|].
  cbn [advance]. destruct (decide (k + n < length f)%nat) as [Hlt|Hge].
  - cbn [fst snd advance].
    replace (k + (n + m))%nat with (k + n + m)%nat by lia. reflexivity.
  - rewrite decide_False by lia. rewrite <- IH. f_equal. lia.
Qed.

Lemma advance_all fs : advance 0 fs (length (concat fs)) = (0%nat, []).
Proof.
  induction fs as [|f fs' IH]; [reflexivity|].
  cbn [concat]. rewrite length_app. rewrite (advance_frame_end 0 f fs'); [exact IH | lia].
Qed.

Lemma advance_suffix (P : list Z -> Prop) fs : forall k n,
  Forall P fs -> Forall P (snd (advance k fs n)).
Proof.
  induction fs as [|f fs' IH]; intros k n Hfs; [constructor|].
  cbn [advance]. case_decide; [exact Hfs|].
  apply IH. apply Forall_cons in Hfs as [_ Hfs]. exact Hfs.
Qed.

Lemma app_split_le (l1 l2 r rest : list Z) :
  l1 ++ l2 = r ++ rest -> (length l1 <= length r)%nat ->
  exists r', r = l1 ++ r' /\ l2 = r' ++ rest.
Proof.
  intros Heq Hle. apply app_eq_inv in Heq as [(k & -> & ->) | (k & -> & ->)].
  - rewrite length_app in Hle. destruct k; [|cbn in Hle; lia].
    exists []. rewrite !app_nil_r. split; reflexivity.
  - exists k. split; reflexivity.
Qed.

Lemma app_split_gt (l1 l2 r rest : list Z) :
  l1 ++ l2 = r ++ rest -> (length r < length l1)%nat ->
  exists g, l1 = r ++ g /\ rest = g ++ l2 /\ (0 < length g)%nat.
Proof.
  intros Heq Hlt. apply app_eq_inv in Heq as [(k & -> & ->) | (k & -> & ->)].
  - exists k. rewrite length_app in Hlt. repeat split; lia.
  - rewrite length_app in Hlt. lia.
Qed.

(** The stream that is left after a read lies at the advanced position. *)
Lemma advance_drop fs : forall k (c rest : list Z),
  (forall f, head fs = Some f -> (k <= length f)%nat) ->
  drop k (concat fs) = c ++ rest ->
  drop (fst (advance k fs (length c))) (concat (snd (advance k fs (length c)))) = rest.
Proof.
  induction fs as [|f fs' IH]; intros k c rest Hk Hstream.
  - cbn in *. rewrite drop_nil in Hstream. symmetry in Hstream.
    apply app_eq_nil in Hstream as [_ ->]. reflexivity.
  - specialize (Hk f eq_refl). cbn [advance concat] in *.
    rewrite drop_app_le in Hstream by exact Hk.
    case_decide as Hlt; cbn [fst snd concat].
    + apply app_split_gt in Hstream as (g & Hg & -> & _);
        [|rewrite length_drop; lia].
      rewrite <- drop_drop, drop_app_le by exact Hk.
      rewrite Hg, <- app_assoc, drop_app_length. reflexivity.
    + apply app_split_le in Hstream as (c' & -> & Hrest);
        [|rewrite length_drop; lia].
      rewrite length_app, length_drop.
      replace (k + (length f - k + length c') - length f)%nat with (length c') by lia.
      apply IH; [intros; lia | exact Hrest].
Qed.

Lemma while_done fuel bytesWritten buf s :
  bytesWritten <= bufPos s -> while fuel bytesWritten buf s = Some (Returned s).
Proof. intros Hend. destruct fuel; cbn [while]; rewrite decide_False by lia; reflexivity. Qed.

Lemma spliced_prefix_length (p : list Z) (fb : Buffer.t) :
  len p <= Buffer.length fb ->
  Buffer.length (p ++ drop (length p) fb) = Buffer.length fb.
Proof.
  unfold Buffer.length. intros Hle. rewrite length_app, length_drop. lia.
Qed.


Variable cap : Z.
Hypothesis cap_small : cap < 2 ^ 31.

Lemma frames_dispatch s view fb p (f : list Z) :
  view_bytes view = f ->
  frames (mkState 0 0 fb p (parsed s ++ [view])) = frames s ++ [f].
Proof. intros <-. unfold frames. cbn. apply map_app. Qed.

Lemma while_reassembles (fuel : nat) :
  forall (pre r stale : list Z) (k : nat) (fs : list (list Z)) (s : state),
    (length r <= fuel)%nat ->
    Forall wire_frame fs -> Forall (fun f => len f <= cap) fs ->
    Buffer.length (frameBuffer s) = cap ->
    bufPos s = len pre ->
    tracks k fs s ->
    (exists rest, drop k (concat fs) = r ++ rest) ->
    ((0 < k < 7)%nat -> pre = [] /\ (7 - k <= length r)%nat) ->
    exists s',
      while fuel (len pre + len r) (pre ++ r ++ stale) s = Some (Returned s') /\
      reassembled cap k fs (length r) s s'.
Proof.
  induction fuel as [|fuel IH]; intros pre r stale k fs s Hfuel Hwire Hfit Hcap Hbuf Htr
    [rest Hstream] Hhdr.
  all: destruct (decide (length r = 0%nat)) as [Hr0|Hr0]; [| try lia].
  1,2: (destruct r; [|discriminate]); exists s; split; [apply while_done; cbn; lia|];
    unfold reassembled; cbn [length]; rewrite advance_stay;
    [ auto | exact Hwire | destruct Htr as [(-> & _)|(f & fs' & -> & Hk & _)]; [left|right]; eauto with lia ].
  cbn [while]. rewrite decide_True by lia.
  destruct Htr as [(-> & Hpos & Hsize) | (f & fs' & -> & Hk & Hpos & Htake & Hsize)].
  - (* at a frame boundary *)
    rewrite drop_0 in Hstream.
    destruct fs as [|f fs']; [destruct r; [contradiction Hr0; reflexivity | discriminate]|].
    cbn [concat] in Hstream.
    apply Forall_cons in Hwire as [Hf Hwire]. apply Forall_cons in Hfit as [Hfcap Hfit].
    pose proof (wire_frame_length f Hf) as H8.
    destruct (decide (length f <= length r)%nat) as [Hwhole|Hpart].
    + (* the whole frame is in the read *)
      apply app_split_le in Hstream as (r' & -> & Hstream); [|exact Hwhole].
      rewrite length_app in Hfuel |- *.
      destruct (pass_whole_frame pre f r' stale s Hpos Hsize Hbuf Hf) as (view & Hview & Hbody);
        [lia|].
      rewrite Nat2Z.inj_add, Hbody.
      destruct (IH (pre ++ f) r' stale 0%nat fs'
                   (mkState 0 0 (frameBuffer s) (len pre + len f) (parsed s ++ [view])))
        as (s' & Hwhile & Htr' & Hfr' & Hcap'); try assumption.
      { lia. }
      { cbn. rewrite length_app. lia. }
      { left. auto. }
      { exists rest. rewrite drop_0. exact Hstream. }
      { lia. }
      exists s'. split.
      * rewrite <- Hwhile. rewrite length_app, <- !app_assoc. f_equal. lia.
      * unfold reassembled. rewrite (advance_frame_end 0 f fs') by lia.
        split; [exact Htr'|]. split; [|exact Hcap'].
        rewrite Hfr', (frames_dispatch s view _ _ f Hview), <- app_assoc. reflexivity.
    + (* the read ends inside the frame *)
      apply app_split_gt in Hstream as (g2 & -> & -> & Hg2); [|lia].
      unfold reassembled. rewrite advance_within by lia. cbn [fst snd Nat.add].
      destruct (decide (length r < 7)%nat) as [Hshort|Hlong].
      * rewrite pass_short_header; try assumption; try lia.
        eexists. split; [reflexivity|]. cbn [frameBuffer].
        split; [|split; [reflexivity|rewrite spliced_prefix_length; lia]].
        right. exists (r ++ g2), fs'. cbn [framePos frameSize frameBuffer].
        rewrite decide_True by lia. rewrite !take_app_length.
        repeat split; try reflexivity; lia.
      * rewrite (pass_frame_start pre r stale g2); try assumption; try lia.
        rewrite while_done by (cbn; lia).
        eexists. split; [reflexivity|]. cbn [frameBuffer].
        split; [|split; [reflexivity|rewrite spliced_prefix_length; rewrite ?length_app in *; lia]].
        right. exists (r ++ g2), fs'. cbn [framePos frameSize frameBuffer].
        rewrite decide_False by lia. rewrite !take_app_length.
        repeat split; try reflexivity; lia.
  - (* inside a frame, [a] buffered, [g] to come *)
    apply Forall_cons in Hwire as [Hf Hwire]. apply Forall_cons in Hfit as [Hfcap Hfit].
    pose proof (wire_frame_length f Hf) as H8.
    assert (Hsplit : exists a g, f = a ++ g /\ length a = k).
    { exists (take k f), (drop k f). rewrite take_drop, length_take. split; [reflexivity|lia]. }
    destruct Hsplit as (a & g & -> & Ha).
    cbn [concat] in Hstream. rewrite <- app_assoc in Hstream.
    rewrite drop_app_length' in Hstream by (symmetry; exact Ha).
    rewrite take_app_length' in Htake by (symmetry; exact Ha).
    rewrite length_app in Hk, H8.
    destruct (decide (k < 7)%nat) as [Hk7|Hk7].
    + (* the header is not complete *)
      destruct (Hhdr ltac:(lia)) as [-> Hrlen].
      assert (Hsplit : exists h g', g = h ++ g' /\ length h = (7 - k)%nat).
      { exists (take (7 - k) g), (drop (7 - k) g). rewrite take_drop, length_take.
        split; [reflexivity|lia]. }
      destruct Hsplit as (h & g' & -> & Hh).
      assert (Hnum : len (a ++ h ++ g') = len a + len h + len g')
        by (rewrite !length_app; lia).
      rewrite length_app in Hk, H8.
      rewrite <- app_assoc in Hstream.
      apply app_split_le in Hstream as (r1 & -> & Hstream); [|lia].
      cbn [app]. rewrite <- (app_assoc h r1 stale).
      rewrite (pass_header_rest h r1 stale a g') by
        (try assumption; try lia; rewrite ?Ha; try assumption; lia).
      destruct (IH h r1 stale 7%nat ((a ++ h ++ g') :: fs')
                  (mkState 7 (len (a ++ h ++ g')) (a ++ h ++ drop 7 (frameBuffer s))
                           (len h) (parsed s)))
        as (s' & Hwhile & Htr' & Hfr' & Hcap'); try assumption.
      { rewrite length_app in Hfuel. lia. }
      { constructor; assumption. }
      { constructor; assumption. }
      { cbn [frameBuffer]. rewrite (app_assoc a h).
        replace 7%nat with (length (a ++ h)) by (rewrite length_app; lia).
        rewrite spliced_prefix_length; [exact Hcap | rewrite length_app; lia]. }
      { reflexivity. }
      { right. exists (a ++ h ++ g'), fs'. cbn [framePos frameSize frameBuffer].
        rewrite decide_False by lia.
        rewrite !(app_assoc a h).
        rewrite !take_app_length' by (rewrite length_app; lia).
        repeat split; try reflexivity; rewrite ?length_app; lia. }
      { exists rest. cbn [concat]. rewrite (app_assoc a h), <- app_assoc.
        rewrite drop_app_length' by (rewrite length_app; lia). exact Hstream. }
      { lia. }
      exists s'. split.
      * rewrite <- Hwhile. cbn [length]. rewrite length_app.
        f_equal. lia.
      * unfold reassembled in *. rewrite length_app.
        rewrite (advance_shift k 7 _ (length h) (length r1)) by lia.
        split; [exact Htr'|]. split; [exact Hfr'|exact Hcap'].
    + (* the size of the frame is known *)
      rewrite body_known_size by (rewrite Hsize, length_app; lia).
      destruct (decide (length g <= length r)%nat) as [Hrest|Hpart].
      * apply app_split_le in Hstream as (r' & -> & Hstream); [|exact Hrest].
        destruct (accumulate_rest pre g r' stale a s) as (view & Hview & Hacc);
          try assumption; try lia; rewrite ?Ha; try assumption; try lia.
        rewrite length_app in Hfuel |- *. rewrite Nat2Z.inj_add, Hacc.
        destruct (IH (pre ++ g) r' stale 0%nat fs'
                     (mkState 0 0 (a ++ g ++ drop (length (a ++ g)) (frameBuffer s))
                              (len pre + len g) (parsed s ++ [view])))
          as (s' & Hwhile & Htr' & Hfr' & Hcap'); try assumption.
        { lia. }
        { cbn [frameBuffer]. rewrite (app_assoc a g).
          rewrite spliced_prefix_length; [exact Hcap | lia]. }
        { cbn. rewrite length_app. lia. }
        { left. auto. }
        { exists rest. rewrite drop_0. exact Hstream. }
        { lia. }
        exists s'. split.
        -- rewrite <- Hwhile. rewrite !length_app, <- !app_assoc. f_equal. lia.
        -- unfold reassembled in *.
           rewrite (advance_frame_end k (a ++ g) fs') by (rewrite length_app; lia).
           split; [exact Htr'|]. split; [|exact Hcap'].
           rewrite Hfr', (frames_dispatch s view _ _ (a ++ g) Hview), <- app_assoc.
           reflexivity.
      * apply app_split_gt in Hstream as (g2 & -> & -> & Hg2); [|lia].
        rewrite length_app in Hk, H8.
        assert (Hnum : len (a ++ r ++ g2) = len a + len r + len g2)
          by (rewrite !length_app; lia).
        rewrite (accumulate_part pre r stale a g2) by
          (try assumption; try lia; rewrite ?Ha; try assumption; lia).
        rewrite while_done by (cbn; lia).
        eexists. split; [reflexivity|].
        unfold reassembled. rewrite advance_within by (rewrite !length_app; lia).
        cbn [fst snd frameBuffer].
        split; [|split; [reflexivity|]].
        -- right. exists (a ++ r ++ g2), fs'. cbn [framePos frameSize frameBuffer].
           rewrite decide_False by lia.
           rewrite !(app_assoc a r).
           rewrite !take_app_length' by (rewrite length_app; lia).
           repeat split; try reflexivity; rewrite ?length_app; lia.
        -- rewrite (app_assoc a r).
           rewrite spliced_prefix_length; [exact Hcap | rewrite !length_app in *; lia].
Qed.

Lemma tracks_position k fs s :
  tracks k fs s -> forall f, head fs = Some f -> (k <= length f)%nat.
Proof.
  intros [(-> & _) | (f & fs' & -> & Hk & _)] f0 Hhead; [lia|].
  cbn in Hhead. injection Hhead as <-. lia.
Qed.

Lemma reassembled_refl k fs s :
  Forall wire_frame fs -> Buffer.length (frameBuffer s) = cap -> tracks k fs s ->
  reassembled cap k fs 0 s s.
Proof.
  intros Hwire Hcap Htr. unfold reassembled. rewrite advance_stay; [auto | exact Hwire |].
  destruct Htr as [(-> & _) | (f & fs' & -> & Hk & _)]; [left | right]; eauto with lia.
Qed.

Lemma callback_reassembles (fuel : nat) (c : list Z) (rb : Buffer.t) k fs s :
  (length c <= fuel)%nat ->
  Forall wire_frame fs -> Forall (fun f => len f <= cap) fs ->
  Buffer.length (frameBuffer s) = cap ->
  tracks k fs s ->
  (exists rest, drop k (concat fs) = c ++ rest) ->
  ((0 < k < 7)%nat -> (7 - k <= length c)%nat) ->
  exists s',
    callback fuel (len c) (receive c rb) s = Some (Returned s') /\
    reassembled cap k fs (length c) s s'.
Proof.
  intros Hfuel Hwire Hfit Hcap Htr Hstream Hhdr.
  unfold callback, receive.
  destruct (while_reassembles fuel [] c (drop (length c) rb) k fs
              (mkState (framePos s) (frameSize s) (frameBuffer s) 0 (parsed s)))
    as (s' & Hwhile & Hre); try assumption.
  - reflexivity.
  - intros Hk. split; [reflexivity | apply Hhdr, Hk].
  - exists s'. split; [exact Hwhile | exact Hre].
Qed.

Lemma feed_reassembles (fuel : nat) (chunks : list (list Z)) :
  forall (rb : Buffer.t) k fs s,
    Forall (fun c => (length c <= fuel)%nat) chunks ->
    Forall wire_frame fs -> Forall (fun f => len f <= cap) fs ->
    Buffer.length (frameBuffer s) = cap ->
    tracks k fs s ->
    (exists rest, drop k (concat fs) = concat chunks ++ rest) ->
    headers_in_two_reads k fs chunks ->
    exists s',
      feed fuel chunks rb s = Some (Returned s') /\
      reassembled cap k fs (length (concat chunks)) s s'.
Proof.
  induction chunks as [|c cs IH]; intros rb k fs s Hfuel Hwire Hfit Hcap Htr [rest Hstream] Hhdr.
  - exists s. split; [reflexivity|]. apply reassembled_refl; assumption.
  - apply Forall_cons in Hfuel as [Hc Hfuel]. destruct Hhdr as [Hhdr Hnext].
    cbn [concat] in Hstream. rewrite <- app_assoc in Hstream.
    destruct (callback_reassembles fuel c rb k fs s) as (s1 & Hcb & Htr1 & Hfr1 & Hcap1);
      try assumption; [eauto|].
    destruct (IH (receive c rb) _ _ s1 Hfuel
                 (advance_suffix _ fs k (length c) Hwire)
                 (advance_suffix _ fs k (length c) Hfit) Hcap1 Htr1)
      as (s' & Hfeed & Htr' & Hfr' & Hcap'); [|exact Hnext|].
    { exists rest. apply advance_drop; [apply (tracks_position k fs s Htr) | exact Hstream]. }
    exists s'. split.
    + cbn [feed]. rewrite Hcb. exact Hfeed.
    + unfold reassembled. cbn [concat]. rewrite length_app, advance_add.
      split; [exact Htr'|]. split; [|exact Hcap'].
      rewrite Hfr'. exact Hfr1.
Qed.


End Reassembly.

(** A whole stream, read from a frame boundary on. *)
Lemma feed_whole_stream (cap : Z)
    (stream chunks : list (list Z)) (frameBuffer readBuffer : Buffer.t) (fuel : nat) :
  cap < 2 ^ 31 ->
  Buffer.length frameBuffer = cap ->
  Forall wire_frame stream ->
  Forall (fun f => len f <= cap) stream ->
  Forall (fun c => (length c <= fuel)%nat) chunks ->
  concat chunks = concat stream ->
  headers_in_two_reads 0 stream chunks ->
  exists s,
    Detector.feed fuel chunks readBuffer (Detector.initial frameBuffer)
      = Some (Detector.Returned s) /\
    Detector.frames s = stream /\ Detector.framePos s = 0 /\ Detector.frameSize s = 0.
Proof.
  intros Hsmall Hcap Hwire Hfit Hfuel Hconcat Hhdr.
  destruct (feed_reassembles cap Hsmall fuel chunks readBuffer 0%nat stream
              (Detector.initial frameBuffer))
    as (s & Hfeed & Htr & Hfr & _); try assumption.
  - left. auto.
  - exists []. rewrite drop_0, app_nil_r. symmetry. exact Hconcat.
  - exists s. split; [exact Hfeed|].
    rewrite Hconcat, advance_all in Htr, Hfr. cbn [fst snd] in Htr, Hfr.
    rewrite app_nil_r in Hfr.
    destruct Htr as [(_ & Hpos & Hsize) | (f & fs' & Hnil & _)]; [|discriminate].
    auto.
Qed.

(** X1.  Reassembly, for every stream of frames that fit the scratch buffer and
    every way of cutting it into reads in which no header takes more than
    two reads: every callback returns, the reads dispatch exactly the frames
    of the stream, byte for byte and in order, and leave the callback at a
    frame boundary, whatever the scratch buffer and the read buffer held
    before.  [fuel] is any number of passes not below the longest read. *)
Theorem reassembly_with_headers_in_two_reads
    (stream chunks : list (list Z)) (frameBuffer readBuffer : Buffer.t) (fuel : nat) :
  Buffer.length frameBuffer = 16384 ->
  Forall wire_frame stream ->
  Forall (fun f => len f <= 16384) stream ->
  Forall (fun c => (length c <= fuel)%nat) chunks ->
  concat chunks = concat stream ->
  headers_in_two_reads 0 stream chunks ->
  exists s,
    Detector.feed fuel chunks readBuffer (Detector.initial frameBuffer) = Some (Detector.Returned s) /\
    Detector.frames s = stream /\ Detector.framePos s = 0 /\ Detector.frameSize s = 0.
Proof.
  intros Hcap Hwire Hfit Hfuel Hconcat Hhdr.
  apply (feed_whole_stream 16384); try assumption. lia.
Qed.

Lemma reassembly_with_headers_in_two_reads_witness :
  exists s,
    Detector.feed 36 [take 3 frame16; drop 3 frame16 ++ take 10 frame20; drop 10 frame20]
         readBuffer0 (Detector.initial frameBuffer0) = Some (Detector.Returned s) /\
    Detector.frames s = [frame16; frame20] /\ Detector.framePos s = 0 /\
    Detector.frameSize s = 0.
Proof.
  apply (reassembly_with_headers_in_two_reads [frame16; frame20]).
  - vm_compute. reflexivity.
  - repeat constructor; try lia; do 8 eexists; split; reflexivity.
  - repeat constructor; cbn; lia.
  - repeat constructor; cbn; lia.
  - reflexivity.
  - cbn. repeat split; lia.
Defined.

(** X10.  The state a read leaves behind, for every stream of frames that fit
    the scratch buffer and every sequence of reads, of the whole stream or
    of a part of it, in which no header takes more than two reads: the
    callback returns, and either [frameSize] is 0 and [framePos] counts the
    0 to 6 header bytes buffered, or [frameSize] is positive and
    [0 <= framePos <= frameSize]. *)
Theorem exit_state_invariant
    (stream chunks : list (list Z)) (rest : list Z)
    (frameBuffer readBuffer : Buffer.t) (fuel : nat) :
  Buffer.length frameBuffer = 16384 ->
  Forall wire_frame stream ->
  Forall (fun f => len f <= 16384) stream ->
  Forall (fun c => (length c <= fuel)%nat) chunks ->
  concat stream = concat chunks ++ rest ->
  headers_in_two_reads 0 stream chunks ->
  exists s,
    Detector.feed fuel chunks readBuffer (Detector.initial frameBuffer)
      = Some (Detector.Returned s) /\
    ((Detector.frameSize s = 0 /\ 0 <= Detector.framePos s <= 6) \/
     (0 < Detector.frameSize s /\ 0 <= Detector.framePos s <= Detector.frameSize s)).
Proof.
  intros Hcap Hwire Hfit Hfuel Hconcat Hhdr.
  destruct (feed_reassembles 16384 ltac:(lia) fuel chunks readBuffer 0%nat stream
              (Detector.initial frameBuffer))
    as (s & Hfeed & Htr & _); try assumption.
  - left. auto.
  - exists rest. rewrite drop_0. exact Hconcat.
  - exists s. split; [exact Hfeed|].
    destruct Htr as [(_ & Hpos & Hsize) | (f & fs' & _ & Hk & Hpos & _ & Hsize)].
    + left. lia.
    + case_decide; [left | right]; lia.
Qed.

Lemma exit_state_invariant_witness :
  exists s,
    Detector.feed 3 [take 3 frame16] readBuffer0 (Detector.initial frameBuffer0)
      = Some (Detector.Returned s) /\
    ((Detector.frameSize s = 0 /\ 0 <= Detector.framePos s <= 6) \/
     (0 < Detector.frameSize s /\ 0 <= Detector.framePos s <= Detector.frameSize s)).
Proof.
  apply (exit_state_invariant [frame16] [take 3 frame16] (drop 3 frame16)).
  - vm_compute. reflexivity.
  - apply Forall_singleton.
    split; [repeat constructor; lia | do 8 eexists; split; reflexivity].
  - apply Forall_singleton. cbn. lia.
  - apply Forall_singleton. cbn. lia.
  - reflexivity.
  - cbn. repeat split; lia.
Defined.

(** ** Any bytes, any state: what the callback keeps and how it fails *)

Section Robustness.

Import Detector.

(** What a successful [copy] has done: nothing, or [n] bytes moved inside
    both buffers. *)
Lemma copy_result (source target target' : Buffer.t) targetStart sourceStart sourceEnd n :
  Buffer.copy source target targetStart sourceStart sourceEnd = Normal (n, target') ->
  (n = 0 /\ target' = target) \/
  (0 < n /\ n <= sourceEnd - sourceStart /\
   0 <= targetStart /\ targetStart + n <= Buffer.length target /\
   0 <= sourceStart /\ sourceStart + n <= Buffer.length source /\
   target' = take (Z.to_nat targetStart) target
               ++ Buffer.sub source sourceStart n
               ++ drop (Z.to_nat (targetStart + n)) target).
Proof.
  unfold Buffer.copy. pose proof (buffer_length_nonneg source).
  repeat case_decide; intros [= <- <-]; [left; auto|].
  destruct (decide (Buffer.length source - sourceStart = 0)) as [Hz|Hz].
  - left. rewrite Z.min_r by lia. rewrite Hz. split; [reflexivity|].
    unfold Buffer.sub. cbn [Z.to_nat take app].
    rewrite Z.add_0_r. apply take_drop.
  - right. repeat split; try lia.
Qed.

Lemma copy_length (source target target' : Buffer.t) targetStart sourceStart sourceEnd n :
  Buffer.copy source target targetStart sourceStart sourceEnd = Normal (n, target') ->
  Buffer.length target' = Buffer.length target.
Proof.
  intros Hcopy. apply copy_result in Hcopy as [[_ ->] | (Hn & _ & Ht & Htn & Hs & Hsn & ->)];
    [reflexivity|].
  apply spliced_length; lia.
Qed.

(** One pass keeps the scratch buffer's size and [framePos] inside it. *)
Lemma body_scratch_bounds bytesWritten buf s :
  0 <= framePos s <= Buffer.length (frameBuffer s) ->
  match body bytesWritten buf s with
  | Continue s' | Break s' | Throw _ s' =>
      Buffer.length (frameBuffer s') = Buffer.length (frameBuffer s) /\
      0 <= framePos s' <= Buffer.length (frameBuffer s')
  end.
Proof.
  intros Hpos.
  destruct (body bytesWritten buf s) as [s'|s'|e s'] eqn:Hbody; revert Hbody;
    unfold body, accumulate, parseFrames;
    repeat (case_decide || case_match); try discriminate;
    intros; simplify_eq; cbn;
    try match goal with
        | H : Buffer.copy _ _ _ _ _ = Normal _ |- _ =>
            pose proof (copy_length _ _ _ _ _ _ _ H);
            apply copy_result in H as [[? ->] | (? & ? & ? & ? & ? & ? & ->)]
        end;
    cbn in *; try lia.
Qed.

Lemma while_scratch_bounds (fuel : nat) bytesWritten buf : forall s r,
  0 <= framePos s <= Buffer.length (frameBuffer s) ->
  while fuel bytesWritten buf s = Some r ->
  Buffer.length (frameBuffer (exit_state r)) = Buffer.length (frameBuffer s) /\
  0 <= framePos (exit_state r) <= Buffer.length (frameBuffer s).
Proof.
  induction fuel as [|fuel IH]; intros s r Hs; cbn [while];
    case_decide; try discriminate; try (intros [= <-]; cbn; lia).
  pose proof (body_scratch_bounds bytesWritten buf s Hs) as Hbody.
  destruct (body bytesWritten buf s) as [s'|s'|e s'].
  - intros Hr. destruct Hbody as [Hlen Hpos].
    apply IH in Hr as [? ?]; [|exact Hpos]. lia.
  - intros [= <-]; cbn; lia.
  - intros [= <-]; cbn; lia.
Qed.

Lemma feed_scratch_bounds (fuel : nat) (chunks : list (list Z)) : forall readBuffer s r,
  0 <= framePos s <= Buffer.length (frameBuffer s) ->
  feed fuel chunks readBuffer s = Some r ->
  Buffer.length (frameBuffer (exit_state r)) = Buffer.length (frameBuffer s) /\
  0 <= framePos (exit_state r) <= Buffer.length (frameBuffer s).
Proof.
  induction chunks as [|c chunks IH]; intros rb s r Hs; cbn [feed].
  - intros [= <-]; cbn; lia.
  - destruct (callback fuel (len c) (receive c rb) s) as [[s'|e s']|] eqn:Hcb;
      try discriminate.
    + apply while_scratch_bounds in Hcb as [Hlen Hpos]; [|exact Hs]. cbn in Hlen, Hpos.
      intros Hr. apply IH in Hr as [? ?]; [|lia]. lia.
    + intros [= <-].
      apply while_scratch_bounds in Hcb; [|exact Hs]. exact Hcb.
Qed.

(** X6.  Whatever bytes the reads bring, frames or not, and however they are
    cut: when a run of reads that starts from the initial variables ends,
    by the last return or by a throw, the scratch buffer has the size it was
    allocated with and [framePos] lies between 0 and that size.  No pass
    writes outside the scratch buffer. *)
Theorem scratch_buffer_bounds (fuel : nat) (chunks : list (list Z))
    (readBuffer scratch : Buffer.t) :
  match feed fuel chunks readBuffer (initial scratch) with
  | Some r =>
      Buffer.length (frameBuffer (exit_state r)) = Buffer.length scratch /\
      0 <= framePos (exit_state r) <= Buffer.length scratch
  | None => True
  end.
Proof.
  destruct (feed fuel chunks readBuffer (initial scratch)) as [r|] eqn:Hfeed; [|exact I].
  apply feed_scratch_bounds in Hfeed; [exact Hfeed|].
  cbn. pose proof (buffer_length_nonneg scratch). lia.
Qed.

Lemma body_views bytesWritten buf s :
  Buffer.length (frameBuffer (step_state (body bytesWritten buf s)))
  = Buffer.length (frameBuffer s) /\
  exists new,
    parsed (step_state (body bytesWritten buf s)) = parsed s ++ new /\
    Forall (view_in_bounds bytesWritten buf (Buffer.length (frameBuffer s))) new.
Proof.
  destruct (body bytesWritten buf s) as [s'|s'|e s'] eqn:Hbody; revert Hbody;
    unfold body, accumulate, parseFrames, new_AMQPView;
    repeat (case_decide || case_match); try discriminate;
    intros; simplify_eq; cbn [step_state frameBuffer parsed framePos frameSize bufPos] in *;
    try match goal with
        | H : Buffer.copy _ _ _ _ _ = Normal _ |- _ =>
            pose proof (copy_length _ _ _ _ _ _ _ H);
            apply copy_result in H as [[? ?] | (? & ? & ? & ? & ? & ? & ?)]
        end;
    (split; [congruence|]);
    try (exists []; rewrite app_nil_r; split; [reflexivity | constructor]);
    (eexists [_]; split; [reflexivity|]; apply Forall_singleton;
     unfold view_in_bounds; cbn [view_over byteOffset byteLength view_bytes]).
  all: try (repeat split; try lia; f_equal; lia).
  all: try (repeat split; try lia; apply sub_length; lia).
Qed.

Lemma while_views (fuel : nat) bytesWritten buf : forall s r,
  while fuel bytesWritten buf s = Some r ->
  exists new,
    parsed (exit_state r) = parsed s ++ new /\
    Forall (view_in_bounds bytesWritten buf (Buffer.length (frameBuffer s))) new.
Proof.
  induction fuel as [|fuel IH]; intros s r; cbn [while];
    case_decide; try discriminate;
    try (intros [= <-]; exists []; rewrite app_nil_r; split; [reflexivity|constructor]).
  destruct (body_views bytesWritten buf s) as (Hlen & new & Hnew & Hall).
  destruct (body bytesWritten buf s) as [s'|s'|e s']; cbn [step_state] in *.
  - intros Hr. apply IH in Hr as (new' & Hnew' & Hall').
    exists (new ++ new'). rewrite Hnew', Hnew, app_assoc. split; [reflexivity|].
    apply Forall_app. rewrite Hlen in Hall'. split; assumption.
  - intros [= <-]. exists new. split; assumption.
  - intros [= <-]. exists new. split; assumption.
Qed.

Lemma while_after_passes (n : nat) bytesWritten buf : forall s r,
  while n bytesWritten buf s = Some r -> exit_state r = after_passes n bytesWritten buf s.
Proof.
  induction n as [|n IH]; intros s r; cbn [while after_passes];
    case_decide; try discriminate; try (intros [= <-]; reflexivity).
  destruct (body bytesWritten buf s) as [s'|s'|e s'].
  - apply IH.
  - intros [= <-]. reflexivity.
  - intros [= <-]. reflexivity.
Qed.

Lemma after_passes_views (n : nat) bytesWritten buf : forall s,
  exists new,
    parsed (after_passes n bytesWritten buf s) = parsed s ++ new /\
    Forall (view_in_bounds bytesWritten buf (Buffer.length (frameBuffer s))) new.
Proof.
  induction n as [|n IH]; intros s; cbn [after_passes];
    case_decide;
    try (exists []; rewrite app_nil_r; split; [reflexivity|constructor]).
  destruct (body_views bytesWritten buf s) as (Hlen & new & Hnew & Hall).
  destruct (body bytesWritten buf s) as [s'|s'|e s']; cbn [step_state] in *.
  - destruct (IH s') as (new' & Hnew' & Hall').
    exists (new ++ new'). rewrite Hnew', Hnew, app_assoc. split; [reflexivity|].
    apply Forall_app. rewrite Hlen in Hall'. split; assumption.
  - exists new. split; assumption.
  - exists new. split; assumption.
Qed.

(** X7.  Every view handed to [parseFrames] in one call of the callback,
    whatever the bytes and whatever the variables it starts from, and
    whether or not the call ever ends: after any number of passes of the
    loop, each view handed over so far in this call is in bounds.  A view
    over the read buffer lies inside the bytes of this read
    ([byteOffset + byteLength <= bytesWritten]) and shows exactly those
    bytes; a view over the scratch buffer starts at offset 0, has a positive
    length that is not above the buffer's size, and shows that many bytes.
    The views handed over before the call are kept in front, in order.
    When the call ends within [n] passes, the variables it ends with are
    those after [n] passes. *)
Theorem dispatched_views_in_bounds (n : nat) (bytesWritten : Z) (buf : Buffer.t)
    (s : state) :
  let s0 := mkState (framePos s) (frameSize s) (frameBuffer s) 0 (parsed s) in
  (forall r, callback n bytesWritten buf s = Some r ->
             exit_state r = after_passes n bytesWritten buf s0) /\
  exists new,
    parsed (after_passes n bytesWritten buf s0) = parsed s ++ new /\
    Forall (view_in_bounds bytesWritten buf (Buffer.length (frameBuffer s))) new.
Proof.
  intros s0. split.
  - intros r. apply while_after_passes.
  - apply (after_passes_views n bytesWritten buf s0).
Qed.

(** The three ways [copy] ends when its target and source positions are
    inside the buffers. *)
Lemma copy_outcome (source target : Buffer.t) targetStart sourceStart sourceEnd :
  0 <= targetStart -> 0 <= sourceStart < Buffer.length source ->
  (sourceEnd < 0 /\
   Buffer.copy source target targetStart sourceStart sourceEnd
   = Throws (ERR_OUT_OF_RANGE "sourceEnd")) \/
  (0 <= sourceEnd /\
   (Buffer.length target <= targetStart \/ sourceEnd <= sourceStart) /\
   Buffer.copy source target targetStart sourceStart sourceEnd = Normal (0, target)) \/
  (exists n target',
     0 < n /\ targetStart + n <= Buffer.length target /\
     Buffer.length target' = Buffer.length target /\
     Buffer.copy source target targetStart sourceStart sourceEnd = Normal (n, target')).
Proof.
  intros Ht Hs. unfold Buffer.copy.
  repeat case_decide; try lia.
  - left. split; [lia | reflexivity].
  - right. left. split; [lia|]. split; [assumption | reflexivity].
  - right. right. eexists _, _. split; [|split; [|split; [|reflexivity]]]; try lia.
    apply spliced_length; lia.
Qed.

(** X8.  The ways a pass of the loop can throw, for a cursor inside the read
    ([0 <= bufPos < bytesWritten <= buf.length]), [framePos >= 0] and a
    scratch buffer of 7 bytes or more.  The pass has then copied nothing and
    dispatched nothing, and the error is one of four: the first guard
    (line 70), only with 7 or more header bytes already buffered; the third
    guard (line 99), only when [framePos] has reached [frameSize] or the end
    of the scratch buffer; the view's range error, only for a negative frame
    size read at a frame boundary; [copy]'s range error for a negative
    [sourceEnd].  The second guard (line 79) and the bounds error of
    [readInt32BE] never occur. *)
Theorem pass_throws_only (bytesWritten : Z) (buf : Buffer.t) (s s' : state) (e : exn) :
  0 <= bufPos s < bytesWritten -> bytesWritten <= Buffer.length buf ->
  0 <= framePos s -> 7 <= Buffer.length (frameBuffer s) ->
  body bytesWritten buf s = Throw e s' ->
  (framePos s' = framePos s /\ frameBuffer s' = frameBuffer s /\
   bufPos s' = bufPos s /\ parsed s' = parsed s) /\
  ((e = Copied0 (framePos s) (bufPos s) bytesWritten /\
    frameSize s = 0 /\ 7 <= framePos s) \/
   (e = Copied0_report (frameSize s) (framePos s) (bufPos s)
          (Z.min (frameSize s - framePos s) (bytesWritten - bufPos s)) bytesWritten /\
    frameSize s <> 0 /\
    (frameSize s <= framePos s \/ Buffer.length (frameBuffer s) <= framePos s)) \/
   (e = RangeError "Invalid DataView length" /\
    frameSize s = 0 /\ framePos s = 0 /\ frameSize s' < 0) \/
   (e = ERR_OUT_OF_RANGE "sourceEnd" /\
    bufPos s + (if decide (frameSize s = 0) then 7 else frameSize s) - framePos s < 0)).
Proof.
  intros Hbuf Hbw Hpos Hcap.
  assert (Hacc : forall s0 : state,
    framePos s0 = framePos s -> frameBuffer s0 = frameBuffer s ->
    bufPos s0 = bufPos s -> parsed s0 = parsed s -> frameSize s0 <> 0 ->
    accumulate bytesWritten buf s0 = Throw e s' ->
    s' = s0 /\
    ((e = Copied0_report (frameSize s0) (framePos s) (bufPos s)
           (Z.min (frameSize s0 - framePos s) (bytesWritten - bufPos s)) bytesWritten /\
      (frameSize s0 <= framePos s \/ Buffer.length (frameBuffer s) <= framePos s)) \/
     (e = ERR_OUT_OF_RANGE "sourceEnd" /\
      bufPos s + (frameSize s0 - framePos s) < 0))).
  { intros s0 Hfp Hfb Hbp Hpa Hsize. unfold accumulate. rewrite Hfp, Hfb, Hbp.
    destruct (copy_outcome buf (frameBuffer s) (framePos s) (bufPos s)
                (bufPos s + Z.min (frameSize s0 - framePos s) (bytesWritten - bufPos s)))
      as [[Hneg ->] | [(Hend & Hzero & ->) | (n & fb & Hn & Hroom & Hlen & ->)]];
      [lia | lia | | |].
    - intros [= <- <-]. split; [reflexivity|]. right. split; [reflexivity|]. lia.
    - rewrite decide_True by reflexivity. intros [= <- <-].
      split; [reflexivity|]. left. split; [reflexivity|]. lia.
    - rewrite decide_False by lia. cbn [framePos frameSize].
      case_decide as Hdone; [|discriminate].
      unfold new_AMQPView. rewrite decide_False by lia. discriminate. }
  unfold body.
  case_decide as Hsize.
  - case_decide as Hfresh.
    + destruct (copy_outcome buf (frameBuffer s) (framePos s) (bufPos s)
                  (bufPos s + 7 - framePos s))
        as [[Hneg ->] | [(Hend & Hzero & ->) | (n & fb & Hn & Hroom & Hlen & ->)]];
        [lia | lia | | |].
      * intros [= <- <-]. split; [auto|]. right. right. right.
        split; [reflexivity|]. lia.
      * rewrite decide_True by reflexivity. intros [= <- <-].
        split; [auto|]. left. split; [reflexivity|]. lia.
      * rewrite decide_False by lia.
        destruct (readInt32BE_defined fb 3) as [x ->]; [lia | lia |]. discriminate.
    + assert (Hzero : framePos s = 0) by (destruct (decide (framePos s = 0)); tauto).
      case_decide as Hshort.
      * destruct (copy_outcome buf (frameBuffer s) (framePos s) (bufPos s) bytesWritten)
          as [[Hneg ->] | [(Hend & Hz & ->) | (n & fb & Hn & Hroom & Hlen & ->)]];
          [lia | lia | | |]; try lia.
        rewrite decide_False by lia. discriminate.
      * destruct (readInt32BE_defined buf (bufPos s + 3)) as [x ->]; [lia | lia |].
        cbn [framePos frameSize bufPos frameBuffer parsed].
        case_decide as Hfast.
        -- unfold new_AMQPView. case_decide as Hview; [|discriminate].
           intros [= <- <-]. cbn. split; [auto|].
           right. right. left. repeat split; try assumption. lia.
        -- intros Hthrow. apply Hacc in Hthrow as [-> Hthrow]; try reflexivity; [|cbn; lia].
           cbn [framePos frameSize bufPos frameBuffer parsed] in *. lia.
  - intros Hthrow. apply Hacc in Hthrow as [-> Hthrow]; try reflexivity; [|exact Hsize].
    split; [auto|].
    destruct Hthrow as [[-> Hwhy] | [-> Hwhy]].
    + right. left. auto.
    + right. right. right. split; [reflexivity|]. lia.
Qed.

Lemma pass_throws_only_witness :
  let s := mkState 7 0 [0; 0; 0; 0; 0; 0; 0; 0] 0 [] in
  let e := Copied0 7 0 3 in
  (framePos s = framePos s /\ frameBuffer s = frameBuffer s /\
   bufPos s = bufPos s /\ parsed s = parsed s) /\
  ((e = Copied0 (framePos s) (bufPos s) 3 /\
    frameSize s = 0 /\ 7 <= framePos s) \/
   (e = Copied0_report (frameSize s) (framePos s) (bufPos s)
          (Z.min (frameSize s - framePos s) (3 - bufPos s)) 3 /\
    frameSize s <> 0 /\
    (frameSize s <= framePos s \/ Buffer.length (frameBuffer s) <= framePos s)) \/
   (e = RangeError "Invalid DataView length" /\
    frameSize s = 0 /\ framePos s = 0 /\ frameSize s < 0) \/
   (e = ERR_OUT_OF_RANGE "sourceEnd" /\
    bufPos s + (if decide (frameSize s = 0) then 7 else frameSize s) - framePos s < 0)).
Proof.
  intros s e.
  apply (pass_throws_only 3 [1; 0; 1] s s e);
    [unfold s, Buffer.length; cbn; lia.. | reflexivity].
Defined.

(** X9.  A read of fewer than 7 bytes (none included) that starts at a frame
    boundary is taken in one pass, whatever the bytes are: they go to the
    front of the scratch buffer, [framePos] counts them, [frameSize] stays 0
    and nothing is dispatched. *)
Theorem short_read_is_buffered (fuel : nat) (bytesWritten : Z) (buf : Buffer.t)
    (s : state) :
  framePos s = 0 -> frameSize s = 0 ->
  0 <= bytesWritten < 7 -> bytesWritten <= Buffer.length buf ->
  bytesWritten <= Buffer.length (frameBuffer s) ->
  callback (S fuel) bytesWritten buf s =
    Some (Returned (mkState bytesWritten 0
                      (Buffer.sub buf 0 bytesWritten
                         ++ drop (Z.to_nat bytesWritten) (frameBuffer s))
                      0 (parsed s))).
Proof.
  intros Hpos Hsize Hbw Hbuf Hcap. unfold callback. cbn [while bufPos].
  case_decide as Hloop.
  - unfold body. cbn [framePos frameSize frameBuffer bufPos parsed].
    rewrite decide_True by exact Hsize.
    rewrite decide_False by lia.
    rewrite decide_True by lia.
    rewrite copy_in_range by lia. cbv zeta. rewrite Hpos, Hsize.
    replace (Z.min (Z.min (bytesWritten - 0) (Buffer.length (frameBuffer s) - 0))
                   (Buffer.length buf - 0)) with bytesWritten by lia.
    rewrite decide_False by lia.
    change (Z.to_nat 0) with 0%nat. cbn [take app]. rewrite !Z.add_0_l. reflexivity.
  - assert (bytesWritten = 0) as -> by lia.
    rewrite Hpos, Hsize. unfold Buffer.sub. cbn [Z.to_nat take drop app]. reflexivity.
Qed.

Lemma short_read_is_buffered_witness :
  callback 1 3 (receive (take 3 frame16) readBuffer0) (initial frameBuffer0) =
    Some (Returned (mkState 3 0
                      (Buffer.sub (receive (take 3 frame16) readBuffer0) 0 3
                         ++ drop (Z.to_nat 3) (frameBuffer (initial frameBuffer0)))
                      0 (parsed (initial frameBuffer0)))).
Proof.
  apply (short_read_is_buffered 0 3 (receive (take 3 frame16) readBuffer0)
           (initial frameBuffer0));
    [reflexivity | reflexivity | split; [discriminate | reflexivity]
    | vm_compute; discriminate | vm_compute; discriminate].
Defined.







End Robustness.

(** ** One frame through the read buffer and through the scratch buffer *)

Section ZeroCopyOrScratch.

Import Detector.

(** Fresh frame boundary, the whole frame is in the read: the view lies
    over the read buffer. *)
Lemma pass_whole_frame_over (pre f r' stale : list Z) s :
  framePos s = 0 -> frameSize s = 0 -> bufPos s = len pre ->
  wire_frame f -> len f < 2 ^ 31 ->
  exists view,
    view_bytes view = f /\ view_over view = ReadBuffer /\
    body (len pre + (len f + len r')) (pre ++ (f ++ r') ++ stale) s =
      Continue (mkState 0 0 (frameBuffer s) (len pre + len f) (parsed s ++ [view])).
Proof.
  intros Hpos Hsize Hbuf Hf Hsmall.
  pose proof (wire_frame_length f Hf) as H8.
  pose proof (length_middle pre (f ++ r') stale) as Hlen. rewrite length_app in Hlen.
  eexists. split; [|split; [|unfold body]].
  3:{ rewrite decide_True by exact Hsize.
      rewrite decide_False by lia.
      rewrite decide_False by lia.
      rewrite Hbuf.
      rewrite (wire_frame_decode f) by
        (try assumption; try lia;
         rewrite (sub_middle pre (f ++ r') stale 7) by (rewrite length_app; lia);
         apply (take_app_le f r' 7); lia).
      cbn [framePos frameSize frameBuffer bufPos parsed].
      replace (len f - 8 + 8) with (len f) by lia.
      rewrite decide_True by lia.
      unfold new_AMQPView. rewrite decide_False by lia.
      unfold parseFrames. cbn [framePos frameSize frameBuffer bufPos parsed].
      reflexivity. }
  - cbn [view_bytes]. rewrite Z.add_0_l.
    rewrite (sub_middle pre (f ++ r') stale (len f)) by (rewrite length_app; lia).
    rewrite Nat2Z.id, take_app_length. reflexivity.
  - reflexivity.
Qed.

(** A frame read whole at a frame boundary is served from the read buffer. *)
Lemma whole_frame_from_read_buffer (fuel : nat) (f : list Z) (rb fb : Buffer.t) :
  wire_frame f -> len f < 2 ^ 31 -> (1 <= fuel)%nat ->
  exists s',
    feed fuel [f] rb (initial fb) = Some (Returned s') /\
    frames s' = [f] /\ map view_over (parsed s') = [ReadBuffer] /\
    framePos s' = 0 /\ frameSize s' = 0.
Proof.
  intros Hf Hsmall Hfuel. destruct fuel as [|fuel]; [lia|].
  destruct (pass_whole_frame_over [] f [] (drop (length f) rb) (initial fb))
    as (view & Hview & Hover & Hbody); try reflexivity; try assumption.
  cbn [app length] in Hbody. rewrite app_nil_r in Hbody.
  change (Z.of_nat 0) with 0 in Hbody. rewrite Z.add_0_l, Z.add_0_r in Hbody.
  pose proof (wire_frame_length f Hf).
  eexists. split.
  - cbn [feed]. unfold callback, receive.
    cbn [while initial framePos frameSize frameBuffer bufPos parsed].
    rewrite decide_True by lia.
    unfold initial in Hbody. rewrite Hbody.
    destruct fuel; cbn [while bufPos]; rewrite decide_False by lia; reflexivity.
  - unfold frames. cbn [parsed map app framePos frameSize]. rewrite Hview, Hover. auto.
Qed.

(** A view longer than the read is not a view over the read buffer. *)
Lemma longer_than_read bytesWritten buf capacity view :
  view_in_bounds bytesWritten buf capacity view ->
  bytesWritten < len (view_bytes view) -> view_over view = FrameBuffer.
Proof.
  unfold view_in_bounds. destruct (view_over view); [|reflexivity].
  intros (Hoff & Hlen & Hend & Hbytes) Hlong. exfalso.
  rewrite Hbytes in Hlong. unfold Buffer.sub in Hlong.
  rewrite length_take in Hlong. lia.
Qed.

(** X2.  One frame that fits the scratch buffer, read whole or cut in two at
    any byte: both ways dispatch the same single frame, byte for byte.  Read
    whole it is served by a view over the read buffer, without a copy; cut
    in two it is served by a view over the scratch buffer. *)
Theorem frame_whole_or_in_two_reads
    (f : list Z) (m : nat) (frameBuffer readBuffer : Buffer.t) :
  Buffer.length frameBuffer = 16384 ->
  wire_frame f -> len f <= 16384 -> (0 < m < length f)%nat ->
  exists whole cut,
    feed (length f) [f] readBuffer (initial frameBuffer) = Some (Returned whole) /\
    feed (length f) [take m f; drop m f] readBuffer (initial frameBuffer)
      = Some (Returned cut) /\
    frames whole = [f] /\ frames cut = [f] /\
    map view_over (parsed whole) = [ReadBuffer] /\
    map view_over (parsed cut) = [FrameBuffer].
Proof.
  intros Hcap Hf Hfit Hm.
  pose proof (wire_frame_length f Hf) as H8.
  destruct (whole_frame_from_read_buffer (length f) f readBuffer frameBuffer)
    as (whole & Hwhole & Hfw & Hover & _); try assumption; try lia.
  destruct (feed_whole_stream 16384 [f] [take m f; drop m f]
              frameBuffer readBuffer (length f))
    as (cut & Hcut & Hfc & _); try assumption; [lia|..].
  { apply Forall_singleton. exact Hf. }
  { apply Forall_singleton. exact Hfit. }
  { apply Forall_cons. split; [rewrite length_take; lia|].
    apply Forall_singleton. rewrite length_drop. lia. }
  { cbn [concat]. rewrite !app_nil_r, take_drop. reflexivity. }
  { cbn [headers_in_two_reads]. split; [lia|].
    rewrite length_take, Nat.min_l by lia.
    rewrite advance_within by lia. cbn [fst snd Nat.add].
    split; [rewrite length_drop; lia | exact I]. }
  exists whole, cut.
  repeat (split; [assumption|]).
  (* the views of the two reads *)
  pose proof Hcut as Hreads. cbn [feed] in Hreads.
  destruct (callback (length f) (len (take m f)) (receive (take m f) readBuffer)
              (initial frameBuffer)) as [[s1|e1 s1]|] eqn:Hcb1; try discriminate.
  destruct (callback (length f) (len (drop m f))
              (receive (drop m f) (receive (take m f) readBuffer)) s1)
    as [[s2|e2 s2]|] eqn:Hcb2; try discriminate.
  injection Hreads as ->.
  apply while_views in Hcb1 as (new1 & Hnew1 & Hall1).
  apply while_views in Hcb2 as (new2 & Hnew2 & Hall2).
  cbn [exit_state initial parsed Detector.frameBuffer app] in *.
  rewrite Hnew1 in Hnew2.
  unfold frames in Hfc. rewrite Hnew2 in Hfc |- *.
  assert (Hviews : Forall (fun v => view_bytes v = f -> view_over v = FrameBuffer)
                          (new1 ++ new2)).
  { apply Forall_app. split.
    - eapply Forall_impl; [exact Hall1|]. cbn. intros v Hv Hbytes.
      apply (longer_than_read _ _ _ _ Hv). rewrite Hbytes, length_take. lia.
    - eapply Forall_impl; [exact Hall2|]. cbn. intros v Hv Hbytes.
      apply (longer_than_read _ _ _ _ Hv). rewrite Hbytes, length_drop. lia. }
  destruct (new1 ++ new2) as [|v [|v' vs]]; try discriminate.
  injection Hfc as Hv. apply Forall_inv in Hviews.
  cbn. rewrite (Hviews Hv). reflexivity.
Qed.

Lemma frame_whole_or_in_two_reads_witness :
  exists whole cut,
    feed (length frame20) [frame20] readBuffer0 (initial frameBuffer0)
      = Some (Returned whole) /\
    feed (length frame20) [take 9 frame20; drop 9 frame20] readBuffer0
         (initial frameBuffer0)
      = Some (Returned cut) /\
    frames whole = [frame20] /\ frames cut = [frame20] /\
    map view_over (parsed whole) = [ReadBuffer] /\
    map view_over (parsed cut) = [FrameBuffer].
Proof.
  apply (frame_whole_or_in_two_reads frame20 9).
  - vm_compute. reflexivity.
  - split; [repeat constructor; lia | do 8 eexists; split; reflexivity].
  - cbn. lia.
  - cbn. lia.
Defined.

End ZeroCopyOrScratch.


(** ** The scenarios of the specification *)

Section Scenarios.

Import Detector.

(** Scenario A: a 16-byte frame read whole is dispatched as it lies in the
    read buffer, and the variables are back at 0. *)
Example scenario_whole_frame :
  observe (feed 10 [frame16] readBuffer0 (initial frameBuffer0))
  = Some (None, (0, 0, 16), [frame16]).
Proof. vm_compute. reflexivity. Qed.

(** Scenario B: the same frame read as 3 and 13 bytes; nothing is dispatched
    by the first read, the frame by the second. *)
Example scenario_split_in_header :
  observe (feed 10 [take 3 frame16] readBuffer0 (initial frameBuffer0))
  = Some (None, (3, 0, 0), []) /\
  observe (feed 10 [take 3 frame16; drop 3 frame16] readBuffer0 (initial frameBuffer0))
  = Some (None, (0, 0, 13), [frame16]).
Proof. split; vm_compute; reflexivity. Qed.

(** Scenario C: two frames in one read are dispatched in order by one call
    of the callback. *)
Example scenario_two_frames_in_one_read :
  observe (feed 10 [frame16 ++ frame20] readBuffer0 (initial frameBuffer0))
  = Some (None, (0, 0, 36), [frame16; frame20]).
Proof. vm_compute. reflexivity. Qed.

(** The same frame through the read buffer and through the scratch buffer:
    the two views differ in what they lie over, not in their bytes. *)
Example scenario_both_paths_same_bytes :
  match feed 10 [frame20] readBuffer0 (initial frameBuffer0),
        feed 10 [take 9 frame20; drop 9 frame20] readBuffer0 (initial frameBuffer0) with
  | Some (Returned fast), Some (Returned slow) =>
      map view_over (parsed fast) = [ReadBuffer] /\
      map view_over (parsed slow) = [FrameBuffer] /\
      frames fast = frames slow
  | _, _ => False
  end.
Proof. vm_compute. repeat split. Qed.

End Scenarios.

Section CallbackAgainstSpec.

Import Detector.

(** A frame cut after its second and fourth byte. *)
Lemma cut_2_2 (f : list Z) : take 2 f ++ take 2 (drop 2 f) ++ drop 4 f = f.
Proof.
  change 4%nat with (2 + 2)%nat. rewrite <- drop_drop, !take_drop. reflexivity.
Qed.

(** C1.  A valid stream of two frames (20 and 16 bytes) read as 22, 2 and
    12 bytes, so that the header of the second frame arrives in three
    reads.  The second read completes the "header" with three bytes that
    lie behind the chunk in the read buffer (left there by the first read),
    decodes a frame of 65544 bytes, and the third read is swallowed into
    it: one frame is dispatched, not two, and the callback is left at byte
    19 of a frame that does not exist. *)
Theorem header_in_three_reads_is_corrupted :
  let chunks := [frame20 ++ take 2 frame16; take 2 (drop 2 frame16); drop 4 frame16] in
  concat chunks = frame20 ++ frame16 /\
  observe (feed 10 chunks readBuffer0 (initial frameBuffer0))
  = Some (None, (19, 65544, 12), [frame20]).
Proof. split; [reflexivity | vm_compute; reflexivity]. Qed.

(** C2.  What lines 68-75 do when the chunk is shorter than the missing
    part of a buffered header: the copy runs to [bufPos + 7 - framePos]
    whatever [bytesWritten] is, so it takes bytes of the read buffer that
    lie behind the chunk, [framePos] becomes 7, [bufPos] passes
    [bytesWritten], and [frameSize] is decoded at once from a header of
    which fewer than 7 bytes have arrived.  C2 asks for the opposite: copy
    from the chunk only, wait for the next chunk, decode only when 7 header
    bytes are there. *)
Theorem short_header_continuation_overruns
    (bytesWritten : Z) (buf : Buffer.t) (s : state) :
  frameSize s = 0 -> 0 < framePos s < 7 -> bufPos s = 0 ->
  0 < bytesWritten < 7 - framePos s ->
  7 <= Buffer.length buf -> 7 <= Buffer.length (frameBuffer s) ->
  let fb := take (Z.to_nat (framePos s)) (frameBuffer s)
              ++ Buffer.sub buf 0 (7 - framePos s)
              ++ drop 7 (frameBuffer s) in
  exists n,
    Buffer.readInt32BE fb 3 = Normal n /\
    body bytesWritten buf s =
      Continue (mkState 7 (n + 8) fb (7 - framePos s) (parsed s)).
Proof.
  intros Hsize Hpos Hbuf Hbw Hlen Hcap fb.
  assert (Hfb : Buffer.length fb = Buffer.length (frameBuffer s)).
  { unfold fb. replace 7%nat with (Z.to_nat (framePos s + (7 - framePos s))) by lia.
    apply spliced_length; lia. }
  assert (Hread : exists n, Buffer.readInt32BE fb 3 = Normal n).
  { apply readInt32BE_defined; lia. }
  destruct Hread as [n Hread]. exists n. split; [exact Hread|].
  unfold body.
  rewrite decide_True by exact Hsize.
  rewrite decide_True by lia.
  rewrite copy_in_range by lia. cbv zeta. rewrite Hbuf.
  replace (Z.min (Z.min (0 + 7 - framePos s - 0)
                        (Buffer.length (frameBuffer s) - framePos s))
                 (Buffer.length buf - 0)) with (7 - framePos s) by lia.
  replace (Z.to_nat (framePos s + (7 - framePos s))) with 7%nat by lia.
  fold fb. rewrite decide_False by lia. rewrite Hread.
  cbn [framePos frameSize frameBuffer bufPos parsed].
  repeat f_equal; lia.
Qed.

Lemma short_header_continuation_overruns_witness :
  let buf := receive [1; 0] readBuffer0 in
  let s := mkState 2 0 (receive [1; 0] frameBuffer0) 0 [] in
  let fb := take (Z.to_nat (framePos s)) (frameBuffer s)
              ++ Buffer.sub buf 0 (7 - framePos s)
              ++ drop 7 (frameBuffer s) in
  exists n,
    Buffer.readInt32BE fb 3 = Normal n /\
    body 2 buf s = Continue (mkState 7 (n + 8) fb (7 - framePos s) (parsed s)).
Proof.
  intros buf s.
  apply (short_header_continuation_overruns 2 buf s);
    [reflexivity | vm_compute; split; reflexivity | reflexivity
    | vm_compute; split; reflexivity
    | vm_compute; discriminate | vm_compute; discriminate].
Defined.

(** X17.  On the slow path (the frame under construction is not wholly in
    the chunk: either its size is already known from an earlier pass, or
    this pass has just read it from a header at [bufPos] and the chunk ends
    before the frame does), from variables with
    [0 <= framePos < frameSize <= frameBuffer.length] and a cursor inside
    the read, one pass of the loop copies exactly
    [min (frameSize - framePos) (bytesWritten - bufPos)] bytes of the chunk
    into [frameBuffer] at [framePos], advances [framePos] and [bufPos] by
    that count, and, when [framePos] reaches [frameSize], hands
    [parseFrames] a view over [frameBuffer[0:frameSize]] and resets
    [framePos] and [frameSize] to 0. *)
Theorem slow_path_iteration (bytesWritten : Z) (buf : Buffer.t) (s : state) (fs : Z) :
  0 <= bufPos s < bytesWritten -> bytesWritten <= Buffer.length buf ->
  0 <= framePos s < fs -> fs <= Buffer.length (frameBuffer s) ->
  (frameSize s = fs \/
   (frameSize s = 0 /\ framePos s = 0 /\ bufPos s + 7 <= bytesWritten /\
    Buffer.readInt32BE buf (bufPos s + 3) = Normal (fs - 8) /\
    bytesWritten - bufPos s < fs)) ->
  let n := Z.min (fs - framePos s) (bytesWritten - bufPos s) in
  let fb := take (Z.to_nat (framePos s)) (frameBuffer s)
              ++ Buffer.sub buf (bufPos s) n
              ++ drop (Z.to_nat (framePos s + n)) (frameBuffer s) in
  0 < n /\
  Z.of_nat (List.length (Buffer.sub buf (bufPos s) n)) = n /\
  body bytesWritten buf s =
    Continue (if decide (framePos s + n = fs)
              then mkState 0 0 fb (bufPos s + n)
                     (parsed s ++ [mkView FrameBuffer 0 fs (Buffer.sub fb 0 fs)])
              else mkState (framePos s + n) fs fb (bufPos s + n) (parsed s)).
Proof.
  intros Hb Hbw Hf Hcap Hpath n fb.
  split; [lia|]. split; [apply sub_length; lia|].
  unfold body. destruct Hpath as [Hfs | (Hz & Hp & H7 & Hread & Hshort)].
  - rewrite decide_False by lia.
    rewrite accumulate_in_range by (rewrite ?Hfs; lia).
    cbv zeta. rewrite Hfs. reflexivity.
  - rewrite decide_True by exact Hz.
    rewrite decide_False by lia.
    rewrite decide_False by lia.
    rewrite Hread. cbn [framePos frameSize frameBuffer bufPos parsed].
    replace (fs - 8 + 8) with fs by lia.
    rewrite decide_False by lia.
    rewrite accumulate_in_range by (cbn; lia).
    reflexivity.
Qed.

Lemma slow_path_iteration_witness :
  body 10 (receive (take 10 frame20) readBuffer0) (initial frameBuffer0)
  = Continue (mkState 10 20
                (take 10 frame20 ++ drop 10 frameBuffer0)
                10 []).
Proof.
  assert (H1 : 0 <= bufPos (initial frameBuffer0) < 10) by (cbn; lia).
  assert (H2 : 10 <= Buffer.length (receive (take 10 frame20) readBuffer0))
    by (vm_compute; discriminate).
  assert (H3 : 0 <= framePos (initial frameBuffer0) < 20) by (cbn; lia).
  assert (H4 : 20 <= Buffer.length (frameBuffer (initial frameBuffer0)))
    by (vm_compute; discriminate).
  assert (H5 : Buffer.readInt32BE (receive (take 10 frame20) readBuffer0)
                 (bufPos (initial frameBuffer0) + 3) = Normal (20 - 8))
    by (vm_compute; reflexivity).
  destruct (slow_path_iteration 10 (receive (take 10 frame20) readBuffer0)
              (initial frameBuffer0) 20 H1 H2 H3 H4) as (_ & _ & H).
  - right. repeat split; try exact H5; cbn; lia.
  - rewrite H. vm_compute. reflexivity.
Defined.

(** C3, as stated, fails on a valid stream.  The stream is one frame of 16
    bytes and four of 4096 bytes, far below the scratch buffer's 16384; the
    header of the second frame arrives in three reads (2, 2 and 4092
    bytes), so that the read of 2 bytes decodes a frame size of 65544 from
    bytes the first read left in the read buffer.  When the sixth read (a
    whole frame of 4096 bytes) starts, [framePos] is 12291 and [frameSize]
    65544: the frame under construction is not wholly in the chunk and
    [min (frameSize - framePos) (bytesWritten - bufPos)] is 4096, but the
    pass copies 4093 bytes, what is left of the scratch buffer, and
    advances [framePos] and [bufPos] by 4093. *)
Theorem slow_path_copy_cut_short :
  let reads := [frame16 ++ take 2 frame4096; take 2 (drop 2 frame4096);
                drop 4 frame4096; frame4096; frame4096] in
  let readBuffer := foldl (fun rb c => receive c rb) readBuffer0 reads in
  concat (reads ++ [frame4096])
  = frame16 ++ frame4096 ++ frame4096 ++ frame4096 ++ frame4096 /\
  match feed 10 reads readBuffer0 (initial frameBuffer0) with
  | Some (Returned s) =>
      let s0 := mkState (framePos s) (frameSize s) (frameBuffer s) 0 (parsed s) in
      framePos s0 = 12291 /\ frameSize s0 = 65544 /\
      Buffer.length (frameBuffer s0) = 16384 /\
      Z.min (frameSize s0 - framePos s0) (4096 - bufPos s0) = 4096 /\
      match body 4096 (receive frame4096 readBuffer) s0 with
      | Continue s' =>
          framePos s' = framePos s0 + 4093 /\ bufPos s' = bufPos s0 + 4093 /\
          frameSize s' = frameSize s0
      | _ => False
      end
  | _ => False
  end.
Proof.
  split; [|vm_compute; repeat split].
  cbn [app]. rewrite !concat_cons, concat_nil, app_nil_r, <- !app_assoc.
  rewrite <- (cut_2_2 frame4096) at 4. reflexivity.
Qed.

(** One pass of the loop on a header whose length field is 0xFFFFFFF8, at a
    frame boundary: the size comes out as 0, an empty frame is dispatched
    and the cursor stays where it is. *)
Lemma zero_size_pass (rest frameBuffer : Buffer.t) (views : list AMQPView) :
  body 7 ([1; 0; 0; 255; 255; 255; 248] ++ rest) (mkState 0 0 frameBuffer 0 views)
  = Continue (mkState 0 0 frameBuffer 0 (views ++ [mkView ReadBuffer 0 0 []])).
Proof.
  unfold body. cbn [framePos frameSize bufPos Detector.frameBuffer parsed].
  rewrite decide_True by reflexivity.
  rewrite decide_False by (intros H; apply H; reflexivity).
  rewrite decide_False by lia.
  change (Buffer.readInt32BE ([1; 0; 0; 255; 255; 255; 248] ++ rest) (0 + 3))
    with (@Normal Z (-8)).
  cbn [framePos frameSize bufPos Detector.frameBuffer parsed].
  rewrite decide_True by (change (-8 + 8) with 0; lia).
  unfold new_AMQPView.
  pose proof (buffer_length_nonneg ([1; 0; 0; 255; 255; 255; 248] ++ rest)).
  rewrite decide_False by (change (-8 + 8) with 0; lia).
  reflexivity.
Qed.

(** C4.  The loop does not end on every chunk.  A chunk of 7 bytes whose
    length field is FF FF FF F8, read at a frame boundary, is a frame of
    size -8 + 8 = 0 that "fits" the chunk: each pass dispatches an empty
    view and leaves [bufPos] at 0, no guard is reached, and no number of
    passes finishes the callback, whatever lies in the scratch buffer and
    behind the chunk in the read buffer. *)
Theorem loop_spins_on_zero_frame_size
    (fuel : nat) (frameBuffer rest : Buffer.t) :
  callback fuel 7 ([1; 0; 0; 255; 255; 255; 248] ++ rest) (initial frameBuffer) = None.
Proof.
  unfold callback, initial. cbn [framePos frameSize Detector.frameBuffer parsed].
  generalize (@nil AMQPView) as views.
  induction fuel as [|fuel IH]; intros views.
  - reflexivity.
  - cbn [while bufPos]. rewrite decide_True by lia.
    rewrite zero_size_pass. apply IH.
Qed.




(** C6.  A valid stream of two frames (20 and 16 bytes) read as 10, 11 and
    1 bytes: the third read finds one header byte buffered and brings one
    more; the callback returns with [frameSize] = 6 and [framePos] = 7,
    outside [0 <= framePos <= frameSize]. *)
Theorem invariant_broken_by_short_continuation :
  let chunks := [take 10 frame20; drop 10 frame20 ++ take 1 frame16;
                 take 1 (drop 1 frame16)] in
  concat chunks = frame20 ++ take 2 frame16 /\
  observe (feed 10 chunks readBuffer0 (initial frameBuffer0))
  = Some (None, (7, 6, 6), [frame20]).
Proof. split; [reflexivity | vm_compute; reflexivity]. Qed.

(** C7.  A valid stream of six frames (16 bytes, then five of 4096 bytes),
    each read bringing one frame except that the header of the second frame
    arrives in three reads (2, 2 and 4092 bytes): the read of 2 bytes
    decodes a frame size of 65544 from bytes the first read left in the
    read buffer, the following reads fill the scratch buffer, and in the
    last read the third guard is reached: a copy moves nothing. *)
Theorem guard_reached_on_valid_stream :
  let chunks := [frame16 ++ take 2 frame4096; take 2 (drop 2 frame4096);
                 drop 4 frame4096; frame4096; frame4096; frame4096; frame4096] in
  concat chunks = frame16 ++ frame4096 ++ frame4096 ++ frame4096 ++ frame4096 ++ frame4096 /\
  observe (feed 10 chunks readBuffer0 (initial frameBuffer0))
  = Some (Some (Copied0_report 65544 16384 4093 3 4096),
          (16384, 65544, 4093), [frame16]).
Proof.
  split; [|vm_compute; reflexivity].
  rewrite !concat_cons, concat_nil, app_nil_r, <- !app_assoc.
  rewrite <- (cut_2_2 frame4096) at 4. reflexivity.
Qed.

End CallbackAgainstSpec.


(** ** connect, send and closeSocket *)

Section Lifecycle.

Import Client.

Implicit Types (w : world) (p q : nat) (e : event).

Lemma connect_connected frameBuffer readBuffer w :
  connected (fst (connect frameBuffer readBuffer w))
            (snd (connect frameBuffer readBuffer w)).
Proof.
  unfold connected, connect; cbn. rewrite length_app; cbn.
  split; [reflexivity|]. split; [lia|].
  eexists. split; [reflexivity|]. split; [reflexivity|]. constructor.
Qed.

Lemma settle_lookup_ne f p q w :
  p <> q -> promises (settle f q w) !! p = promises w !! p.
Proof. intros Hne. unfold settle; cbn. apply list_lookup_alter_ne. congruence. Qed.

Lemma settle_lookup_eq f p w :
  promises (settle f p w) !! p = f <$> promises w !! p.
Proof. unfold settle; cbn. apply list_lookup_alter_eq. Qed.

(** Settling a promise a second time changes nothing. *)
Lemma resolve_settled v x : Promise.settled x -> Promise.resolve v x = x.
Proof. destruct x; [intros H; contradiction H; reflexivity | reflexivity..]. Qed.

Lemma reject_settled r x : Promise.settled x -> Promise.reject r x = x.
Proof. destruct x; [intros H; contradiction H; reflexivity | reflexivity..]. Qed.

Lemma handle_connected p w e :
  connected p w -> connected p (handle w e).
Proof.
  intros (Hcp & Hlt & sock & Hsock & Herr & Hq).
  unfold connected.
  destruct e as [|m|err| |r]; cbn.
  - (* SocketConnect *)
    unfold on_connect, send. rewrite Hsock. cbn. rewrite length_app; cbn.
    split; [exact Hcp|]. split; [lia|].
    eexists. split; [reflexivity|]. cbn. split; [exact Herr|].
    apply Forall_app. split.
    + eapply Forall_impl; [exact Hq|]. cbn. intros bq Hbq. lia.
    + constructor; [cbn; lia | constructor].
  - (* SocketError *)
    unfold on_socket_error. rewrite Hsock, Herr. cbn. rewrite length_alter.
    split; [exact Hcp|]. split; [exact Hlt|].
    exists sock. split; [exact Hsock|]. split; [exact Herr|exact Hq].
  - (* WriteDone *)
    unfold write_done. rewrite Hsock.
    destruct (queued sock) as [|[b q] rest] eqn:Hqueue.
    + split; [exact Hcp|]. split; [exact Hlt|].
      exists sock. rewrite Hqueue. split; [exact Hsock|]. split; [exact Herr|constructor].
    + apply Forall_cons in Hq as [_ Hrest].
      destruct err; cbn; rewrite length_alter;
        (split; [exact Hcp|]; split; [exact Hlt|];
         eexists; split; [reflexivity|]; cbn; split; [exact Herr|exact Hrest]).
  - (* EngineResolve *)
    unfold engine_settles. rewrite Hcp. cbn. rewrite length_alter.
    split; [exact Hcp|]. split; [exact Hlt|].
    exists sock. split; [exact Hsock|]. split; [exact Herr|exact Hq].
  - (* EngineReject *)
    unfold engine_settles. rewrite Hcp. cbn. rewrite length_alter.
    split; [exact Hcp|]. split; [exact Hlt|].
    exists sock. split; [exact Hsock|]. split; [exact Herr|exact Hq].
Qed.

Lemma run_connected p w events :
  connected p w -> connected p (run events w).
Proof.
  revert w. induction events as [|e events IH]; intros w Hw; [exact Hw|].
  cbn. apply IH, handle_connected, Hw.
Qed.

(** No handler of this file hands anything to the engine's error channel. *)
Lemma handle_engine_errors w e : engine_errors (handle w e) = engine_errors w.
Proof.
  destruct e as [|m|err| |r]; cbn.
  - unfold on_connect, send. destruct (socket (this w)); reflexivity.
  - unfold on_socket_error. destruct (socket (this w)) as [sock|]; [|reflexivity].
    generalize (on_error sock). intros l. revert w.
    induction l as [|q l IH]; intros w; [reflexivity|]. cbn. rewrite IH. reflexivity.
  - unfold write_done. destruct (socket (this w)) as [sock|]; [|reflexivity].
    destruct (queued sock) as [|[b q] rest]; [reflexivity|].
    destruct err; reflexivity.
  - unfold engine_settles. destruct (connectPromise (this w)); reflexivity.
  - unfold engine_settles. destruct (connectPromise (this w)); reflexivity.
Qed.

Lemma run_engine_errors w events : engine_errors (run events w) = engine_errors w.
Proof.
  revert w. induction events as [|e events IH]; intros w; [reflexivity|].
  change (run (e :: events) w) with (run events (handle w e)).
  rewrite IH. apply handle_engine_errors.
Qed.

(** A settled connect promise survives every event. *)
Lemma handle_settled p w e x :
  connected p w -> promises w !! p = Some x -> Promise.settled x ->
  promises (handle w e) !! p = Some x.
Proof.
  intros (Hcp & Hlt & sock & Hsock & Herr & Hq) Hx Hset.
  destruct e as [|m|err| |r]; cbn.
  - unfold on_connect, send. rewrite Hsock. cbn.
    rewrite lookup_app_l by exact Hlt. exact Hx.
  - unfold on_socket_error. rewrite Hsock, Herr. cbn.
    rewrite list_lookup_alter_eq, Hx. cbn. rewrite reject_settled by exact Hset. reflexivity.
  - unfold write_done. rewrite Hsock.
    destruct (queued sock) as [|[b q] rest] eqn:Hqueue; [exact Hx|].
    apply Forall_cons in Hq as [Hq _]. cbn in Hq.
    destruct err; rewrite settle_lookup_ne by lia; exact Hx.
  - unfold engine_settles. rewrite Hcp, settle_lookup_eq, Hx. cbn.
    rewrite resolve_settled by exact Hset. reflexivity.
  - unfold engine_settles. rewrite Hcp, settle_lookup_eq, Hx. cbn.
    rewrite reject_settled by exact Hset. reflexivity.
Qed.

Lemma run_settled p w events x :
  connected p w -> promises w !! p = Some x -> Promise.settled x ->
  promises (run events w) !! p = Some x.
Proof.
  revert w. induction events as [|e events IH]; intros w Hw Hx Hset; [exact Hx|].
  cbn. apply IH; [apply handle_connected, Hw | apply handle_settled; assumption | exact Hset].
Qed.

(** A socket error rejects the connect promise while it is pending. *)
Lemma socket_error_rejects p w m :
  connected p w -> promises w !! p = Some Promise.Pending ->
  promises (handle w (SocketError m)) !! p = Some (Promise.Rejected (AMQPError m)).
Proof.
  intros (Hcp & Hlt & sock & Hsock & Herr & Hq) Hx. cbn.
  unfold on_socket_error. rewrite Hsock, Herr. cbn.
  rewrite list_lookup_alter_eq, Hx. reflexivity.
Qed.

(** C8 (amended).  [connect()] stores exactly one (resolve, reject) pair, of
    a promise that is pending.  From then on, whatever happens on the
    socket and whatever the engine does with the pair: a socket error that
    finds the promise pending rejects it with the [AMQPError] made from the
    error's message; once the promise is settled, no event changes it (a
    later error calls [reject] again, which does nothing); and no socket
    error reaches the engine's error channel: an error after settlement is
    dropped. *)
Theorem connect_promise_settles_once (frameBuffer readBuffer : Buffer.t) (w : world) :
  let p := fst (connect frameBuffer readBuffer w) in
  let w1 := snd (connect frameBuffer readBuffer w) in
  connectPromise (this w1) = Some p /\
  promises w1 !! p = Some Promise.Pending /\
  (forall events m,
      promises (run events w1) !! p = Some Promise.Pending ->
      promises (run (events ++ [SocketError m]) w1) !! p
      = Some (Promise.Rejected (AMQPError m))) /\
  (forall events later x,
      promises (run events w1) !! p = Some x -> Promise.settled x ->
      promises (run (events ++ later) w1) !! p = Some x) /\
  (forall events, engine_errors (run events w1) = engine_errors w).
Proof.
  intros p w1.
  pose proof (connect_connected frameBuffer readBuffer w) as Hc. fold p w1 in Hc.
  split; [reflexivity|]. split.
  { unfold w1, p, connect; cbn. apply list_lookup_middle. reflexivity. }
  split; [|split].
  - intros events m Hpending. unfold run. rewrite foldl_app. cbn.
    apply socket_error_rejects; [apply run_connected, Hc | exact Hpending].
  - intros events later x Hx Hset. unfold run. rewrite foldl_app.
    apply run_settled; [apply run_connected, Hc | exact Hx | exact Hset].
  - intros events. rewrite run_engine_errors. reflexivity.
Qed.

(** C8, as stated, fails: a socket error that arrives after the handshake
    has resolved the connect promise is not routed to the engine's error
    channel.  The listener only calls [reject]; the promise stays resolved
    and the error is lost. *)
Lemma late_socket_error_counterexample :
  let w := run [EngineResolve; SocketError "ECONNRESET"]
               (snd (connect frameBuffer0 readBuffer0 fresh_world)) in
  promises w !! 0%nat = Some (Promise.Fulfilled TheClient) /\
  engine_errors w = [].
Proof. split; reflexivity. Qed.

(** C9.  [send(bytes)] on a client that has no socket returns a promise that
    is already rejected with "Socket not connected" when [send] returns;
    nothing else changes (the client, the older promises, the engine's
    error channel), and a [send] after [connect()] is handed to the socket,
    its promise pending. *)
Theorem send_before_connect (bytes : list Z) (w : world) :
  socket (this w) = None ->
  let p := fst (send bytes w) in
  let w' := snd (send bytes w) in
  promises w' !! p = Some (Promise.Rejected (Str "Socket not connected")) /\
  promises w' = promises w ++ [Promise.Rejected (Str "Socket not connected")] /\
  this w' = this w /\
  engine_errors w' = engine_errors w /\
  forall frameBuffer readBuffer,
    let w1 := snd (connect frameBuffer readBuffer w') in
    let q := fst (send bytes w1) in
    promises (snd (send bytes w1)) !! q = Some Promise.Pending /\
    exists sock, socket (this (snd (send bytes w1))) = Some sock /\
                 queued sock = [(bytes, q)] /\ ended sock = false.
Proof.
  intros Hnone p w'. unfold p, w', send. rewrite Hnone. cbn.
  split; [apply list_lookup_middle; reflexivity|].
  repeat (split; [reflexivity|]).
  intros frameBuffer readBuffer. cbn.
  split; [apply list_lookup_middle; reflexivity|].
  eexists. split; [reflexivity|]. split; reflexivity.
Qed.

Lemma send_before_connect_witness :
  promises (snd (send preamble fresh_world)) !! fst (send preamble fresh_world)
  = Some (Promise.Rejected (Str "Socket not connected")).
Proof.
  exact (proj1 (send_before_connect preamble fresh_world eq_refl)).
Defined.

(** C10.  [closeSocket()] on a client that has no socket changes nothing.
    On a client that has one it marks the socket as ended and touches
    nothing else: the queued writes, the reader and its buffers, the
    listeners, the stored pair, every promise (it makes none). *)
Theorem closeSocket_effect (w : world) (o : option Socket) :
  socket (this w) = o ->
  match o with
  | None => closeSocket w = w
  | Some sock =>
      exists sock',
        socket (this (closeSocket w)) = Some sock' /\
        ended sock' = true /\
        queued sock' = queued sock /\
        reader sock' = reader sock /\
        onread_buffer sock' = onread_buffer sock /\
        on_error sock' = on_error sock /\
        connectPromise (this (closeSocket w)) = connectPromise (this w) /\
        promises (closeSocket w) = promises w /\
        engine_errors (closeSocket w) = engine_errors w
  end.
Proof.
  intros Ho. unfold closeSocket. rewrite Ho. destruct o as [sock|]; [|reflexivity].
  eexists. cbn. repeat split; reflexivity.
Qed.

Lemma closeSocket_effect_witness : closeSocket fresh_world = fresh_world.
Proof. exact (closeSocket_effect fresh_world None eq_refl). Defined.

End Lifecycle.


(** ** How connect, send, closeSocket and the events compose *)

Section Composition.

Import Client.

Implicit Types (w : world) (p q : nat) (e : event).

(** A [send] on a connected client: its write is the last of the queue. *)
Lemma send_awaits bytes w p sock :
  connected p w -> socket (this w) = Some sock ->
  fst (send bytes w) = length (promises w) /\
  awaits p (fst (send bytes w)) (length (queued sock)) (snd (send bytes w)).
Proof.
  intros Hc Hsock.
  pose proof (handle_connected p w SocketConnect Hc) as Hc'.
  destruct Hc as (Hcp & Hlt & sock0 & Hsock0 & Herr & Hq).
  rewrite Hsock in Hsock0. injection Hsock0 as <-.
  unfold send. rewrite Hsock. cbn. split; [reflexivity|].
  split.
  { unfold connected. cbn. rewrite length_app. cbn.
    split; [exact Hcp|]. split; [lia|].
    eexists. split; [reflexivity|]. cbn. split; [exact Herr|].
    apply Forall_app. split.
    - eapply Forall_impl; [exact Hq|]. cbn. intros bq Hbq. lia.
    - constructor; [cbn; lia | constructor]. }
  split; [exact Hlt|].
  split; [apply list_lookup_middle; reflexivity|].
  eexists _, (queued sock), bytes, []. cbn.
  split; [reflexivity|]. split; [reflexivity|]. split; [reflexivity|].
  split; [|constructor].
  eapply Forall_impl; [exact Hq|]. cbn. intros bq Hbq. lia.
Qed.

Lemma handle_awaits_other p q i w e :
  awaits p q i w -> (forall err, e <> WriteDone err) -> awaits p q i (handle w e).
Proof.
  intros (Hc & Hpq & Hq & sock & front & bytes & back & Hsock & Hqueue & Hi & Hfront & Hback) He.
  pose proof (handle_connected p w e Hc) as Hc'.
  pose proof (lookup_lt_Some _ _ _ Hq) as Hlen.
  destruct Hc as (Hcp & Hlt & sock0 & Hsock0 & Herr & _).
  rewrite Hsock in Hsock0. injection Hsock0 as <-.
  split; [exact Hc'|]. split; [exact Hpq|].
  destruct e as [|m|err| |r]; cbn.
  - unfold on_connect, send. rewrite Hsock. cbn.
    split; [rewrite lookup_app_l by exact Hlen; exact Hq|].
    eexists _, front, bytes, (back ++ [(preamble, length (promises w))]). cbn.
    split; [reflexivity|]. split; [rewrite Hqueue, <- app_assoc; reflexivity|].
    split; [exact Hi|]. split; [exact Hfront|].
    apply Forall_app. split; [exact Hback|]. constructor; [cbn; lia | constructor].
  - unfold on_socket_error. rewrite Hsock, Herr. cbn.
    split; [rewrite list_lookup_alter_ne by lia; exact Hq|].
    exists sock, front, bytes, back. auto.
  - contradiction (He err). reflexivity.
  - unfold engine_settles. rewrite Hcp.
    split; [rewrite settle_lookup_ne by lia; exact Hq|].
    exists sock, front, bytes, back. auto.
  - unfold engine_settles. rewrite Hcp.
    split; [rewrite settle_lookup_ne by lia; exact Hq|].
    exists sock, front, bytes, back. auto.
Qed.

Lemma handle_awaits_older p q i w err :
  awaits p q (S i) w -> awaits p q i (handle w (WriteDone err)).
Proof.
  intros (Hc & Hpq & Hq & sock & front & bytes & back & Hsock & Hqueue & Hi & Hfront & Hback).
  pose proof (handle_connected p w (WriteDone err) Hc) as Hc'.
  split; [exact Hc'|]. split; [exact Hpq|].
  destruct front as [|[b0 q0] front]; [discriminate|].
  apply Forall_cons in Hfront as [Hq0 Hfront]. cbn in Hq0.
  cbn. unfold write_done. rewrite Hsock, Hqueue. cbn.
  split.
  - destruct err; rewrite settle_lookup_ne by lia; exact Hq.
  - destruct err; eexists _, front, bytes, back; cbn;
      (split; [reflexivity|]; split; [reflexivity|]; split; [cbn in Hi; lia|]; auto).
Qed.

Lemma handle_awaits_own p q w err :
  awaits p q 0 w ->
  written p q (handle w (WriteDone err)) /\
  promises (handle w (WriteDone err)) !! q = Some (write_result err).
Proof.
  intros (Hc & Hpq & Hq & sock & front & bytes & back & Hsock & Hqueue & Hi & Hfront & Hback).
  pose proof (handle_connected p w (WriteDone err) Hc) as Hc'.
  pose proof (lookup_lt_Some _ _ _ Hq) as Hlen.
  destruct front; [|discriminate].
  cbn in Hc' |- *. unfold write_done in *. rewrite Hsock, Hqueue in *. cbn in *.
  split.
  - split; [exact Hc'|].
    destruct err; cbn; rewrite length_alter;
      (split; [lia|]; eexists; split; [reflexivity|]; exact Hback).
  - destruct err; rewrite settle_lookup_eq; cbn; rewrite Hq; reflexivity.
Qed.

Lemma handle_written p q w e :
  written p q w ->
  written p q (handle w e) /\ promises (handle w e) !! q = promises w !! q.
Proof.
  intros (Hc & Hpq & sock & Hsock & Hqueue).
  pose proof (handle_connected p w e Hc) as Hc'.
  destruct Hc as (Hcp & Hlt & sock0 & Hsock0 & Herr & _).
  rewrite Hsock in Hsock0. injection Hsock0 as <-.
  unfold written. split; [split; [exact Hc'|]|].
  - destruct e as [|m|err| |r]; cbn.
    + unfold on_connect, send. rewrite Hsock. cbn. rewrite length_app. cbn.
      split; [lia|]. eexists. split; [reflexivity|]. cbn.
      apply Forall_app. split; [exact Hqueue|]. constructor; [cbn; lia | constructor].
    + unfold on_socket_error. rewrite Hsock, Herr. cbn. rewrite length_alter.
      split; [lia|]. exists sock. auto.
    + unfold write_done. rewrite Hsock.
      destruct (queued sock) as [|[b0 q0] rest] eqn:Hq0.
      * split; [lia|]. exists sock. rewrite Hq0. auto.
      * apply Forall_cons in Hqueue as [_ Hrest].
        destruct err; cbn; rewrite length_alter;
          (split; [lia|]; eexists; split; [reflexivity|]; exact Hrest).
    + unfold engine_settles. rewrite Hcp. cbn. rewrite length_alter.
      split; [lia|]. exists sock. auto.
    + unfold engine_settles. rewrite Hcp. cbn. rewrite length_alter.
      split; [lia|]. exists sock. auto.
  - destruct e as [|m|err| |r]; cbn.
    + unfold on_connect, send. rewrite Hsock. cbn. apply lookup_app_l. lia.
    + unfold on_socket_error. rewrite Hsock, Herr. cbn.
      apply list_lookup_alter_ne. lia.
    + unfold write_done. rewrite Hsock.
      destruct (queued sock) as [|[b0 q0] rest] eqn:Hq0; [reflexivity|].
      apply Forall_cons in Hqueue as [Hhead _]. cbn in Hhead.
      destruct err; rewrite settle_lookup_ne by lia; reflexivity.
    + unfold engine_settles. rewrite Hcp. apply settle_lookup_ne. lia.
    + unfold engine_settles. rewrite Hcp. apply settle_lookup_ne. lia.
Qed.

Lemma run_cons e events w : run (e :: events) w = run events (handle w e).
Proof. reflexivity. Qed.

Lemma run_app events later w : run (events ++ later) w = run later (run events w).
Proof. unfold run. apply foldl_app. Qed.

Lemma run_awaits p q (events : list event) : forall i w,
  awaits p q i w -> (write_callbacks events <= i)%nat ->
  awaits p q (i - write_callbacks events) (run events w).
Proof.
  induction events as [|e events IH]; intros i w Hw Hcount.
  - cbn. rewrite Nat.sub_0_r. exact Hw.
  - rewrite run_cons.
    destruct e as [|m|err| |r]; cbn [write_callbacks] in *;
      try (apply IH; [apply handle_awaits_other; [exact Hw | discriminate] | exact Hcount]).
    destruct i as [|i]; [lia|].
    apply (IH i); [apply handle_awaits_older; exact Hw | lia].
Qed.

Lemma run_written p q (events : list event) : forall w,
  written p q w ->
  written p q (run events w) /\ promises (run events w) !! q = promises w !! q.
Proof.
  induction events as [|e events IH]; intros w Hw; [split; [exact Hw | reflexivity]|].
  rewrite run_cons.
  destruct (handle_written p q w e Hw) as [Hw' Hsame].
  destruct (IH _ Hw') as [Hw'' Hsame'].
  split; [exact Hw''|]. rewrite Hsame'. exact Hsame.
Qed.

Lemma run_awaits_or_written p q (events : list event) : forall i w,
  awaits p q i w ->
  (exists j, awaits p q j (run events w)) \/ written p q (run events w).
Proof.
  induction events as [|e events IH]; intros i w Hw; [left; exists i; exact Hw|].
  rewrite run_cons.
  destruct e as [|m|err| |r];
    try (apply (IH i); apply handle_awaits_other; [exact Hw | discriminate]).
  destruct i as [|i].
  - right. apply run_written. apply handle_awaits_own. exact Hw.
  - apply (IH i). apply handle_awaits_older. exact Hw.
Qed.

(** X12.  The promise [send] returns on a connected client is settled by the
    callback of its own write and by nothing else.  It stays pending while
    no more write callbacks have run than there were writes queued before
    it, whatever socket errors, connects and engine actions happen; the
    callback of its write resolves it with [undefined], or rejects it with
    the error the callback is given; once settled it never changes.  In
    particular a socket error does not reject a pending send. *)
Theorem send_settled_by_its_write_callback (bytes : list Z) (w : world) (p : nat)
    (sock : Socket) :
  connected p w -> socket (this w) = Some sock ->
  let q := fst (send bytes w) in
  let w1 := snd (send bytes w) in
  (forall events,
      (write_callbacks events <= length (queued sock))%nat ->
      promises (run events w1) !! q = Some Promise.Pending) /\
  (forall events err,
      write_callbacks events = length (queued sock) ->
      promises (run (events ++ [WriteDone err]) w1) !! q = Some (write_result err)) /\
  (forall events later x,
      promises (run events w1) !! q = Some x -> Promise.settled x ->
      promises (run (events ++ later) w1) !! q = Some x).
Proof.
  intros Hc Hsock q w1.
  destruct (send_awaits bytes w p sock Hc Hsock) as [_ Hw1]. fold q w1 in Hw1.
  split; [|split].
  - intros events Hcount.
    apply (run_awaits p q events _ w1 Hw1) in Hcount as (_ & _ & Hq & _). exact Hq.
  - intros events err Hcount. rewrite run_app.
    pose proof (run_awaits p q events _ w1 Hw1 ltac:(lia)) as Hw.
    rewrite Hcount, Nat.sub_diag in Hw.
    apply (handle_awaits_own p q _ err Hw).
  - intros events later x Hx Hset. rewrite run_app.
    destruct (run_awaits_or_written p q events _ w1 Hw1) as [[j Hj] | Hdone].
    + destruct Hj as (_ & _ & Hq & _). rewrite Hq in Hx. injection Hx as <-.
      contradiction Hset. reflexivity.
    + destruct (run_written p q later _ Hdone) as [_ ->]. exact Hx.
Qed.

Lemma send_settled_by_its_write_callback_witness :
  let w := snd (connect frameBuffer0 readBuffer0 fresh_world) in
  promises (run ([] ++ [WriteDone None]) (snd (send preamble w))) !! fst (send preamble w)
  = Some (write_result None).
Proof.
  intros w.
  exact (proj1 (proj2 (send_settled_by_its_write_callback preamble w 0%nat _
                         (connect_connected frameBuffer0 readBuffer0 fresh_world) eq_refl))
               [] None eq_refl).
Defined.

Lemma closeSocket_settle f p w :
  closeSocket (settle f p w) = settle f p (closeSocket w).
Proof. unfold closeSocket, settle. cbn. destruct (socket (this w)); reflexivity. Qed.

Lemma closeSocket_send bytes w :
  send bytes (closeSocket w) = (fst (send bytes w), closeSocket (snd (send bytes w))).
Proof.
  unfold send, closeSocket.
  destruct (socket (this w)) as [sock|] eqn:Hsock; cbn; [reflexivity|].
  rewrite Hsock. cbn. reflexivity.
Qed.

Lemma closeSocket_handle w e : handle (closeSocket w) e = closeSocket (handle w e).
Proof.
  destruct e as [|m|err| |r]; cbn.
  - unfold on_connect. rewrite closeSocket_send. reflexivity.
  - unfold on_socket_error.
    destruct (socket (this w)) as [sock|] eqn:Hsock.
    + replace (socket (this (closeSocket w))) with
        (Some (mkSocket (secure sock) (peer sock) (servername sock) (reader sock)
                        (onread_buffer sock) (on_error sock) (queued sock) true))
        by (unfold closeSocket; rewrite Hsock; reflexivity).
      cbn [on_error]. clear Hsock. generalize (on_error sock). intros l. revert w.
      induction l as [|q l IH]; intros w; [reflexivity|].
      cbn [foldl]. rewrite <- closeSocket_settle. apply IH.
    + unfold closeSocket. rewrite Hsock. rewrite Hsock. reflexivity.
  - unfold write_done, closeSocket.
    destruct (socket (this w)) as [sock|] eqn:Hsock; cbn; [|rewrite Hsock; reflexivity].
    destruct (queued sock) as [|[b q] rest] eqn:Hq; cbn;
      [rewrite Hsock; cbn; rewrite ?Hq; reflexivity|].
    destruct err; reflexivity.
  - unfold engine_settles.
    replace (connectPromise (this (closeSocket w))) with (connectPromise (this w))
      by (unfold closeSocket; destruct (socket (this w)); reflexivity).
    destruct (connectPromise (this w)); [symmetry; apply closeSocket_settle | reflexivity].
  - unfold engine_settles.
    replace (connectPromise (this (closeSocket w))) with (connectPromise (this w))
      by (unfold closeSocket; destruct (socket (this w)); reflexivity).
    destruct (connectPromise (this w)); [symmetry; apply closeSocket_settle | reflexivity].
Qed.

(** X13.  [closeSocket()] only marks the socket as ended.  It is idempotent,
    and neither [send] nor any handler looks at the mark: closing before or
    after a [send], or before or after any events, gives the same client
    and the same promises.  A [send] after [closeSocket()] is still handed
    to the socket; it is not rejected as not connected. *)
Theorem closeSocket_only_marks (bytes : list Z) (events : list event) (w : world) :
  closeSocket (closeSocket w) = closeSocket w /\
  send bytes (closeSocket w) = (fst (send bytes w), closeSocket (snd (send bytes w))) /\
  run events (closeSocket w) = closeSocket (run events w).
Proof.
  split; [|split].
  - unfold closeSocket. destruct (socket (this w)) as [sock|] eqn:Hsock; cbn; [reflexivity|].
    rewrite Hsock. reflexivity.
  - apply closeSocket_send.
  - revert w. induction events as [|e events IH]; intros w; [reflexivity|].
    rewrite !run_cons, closeSocket_handle. apply IH.
Qed.





(** X16.  The options [connect()] dials with, for every URL: TLS exactly for
    the scheme [amqps:]; the host is the URL's, or [localhost] when that is
    empty, and is never empty; the SNI server name is the host dialled; the
    port is the URL's when it is a number other than 0, otherwise 5671 with
    TLS and 5672 without, and is never 0. *)
Theorem connection_options (u : URL) (frameBuffer readBuffer : Buffer.t) :
  let w := snd (connect frameBuffer readBuffer (mkWorld (constructor u) [] [])) in
  exists sock,
    socket (this w) = Some sock /\
    (secure sock = true <-> protocol u = "amqps:"%string) /\
    servername sock = fst (peer sock) /\
    fst (peer sock) <> ""%string /\
    (hostname u = ""%string -> fst (peer sock) = "localhost"%string) /\
    (hostname u <> ""%string -> fst (peer sock) = hostname u) /\
    snd (peer sock) <> 0 /\
    (forall n, url_port u = Some n -> n <> 0 -> snd (peer sock) = n) /\
    (url_port u = None \/ url_port u = Some 0 ->
     snd (peer sock) = if secure sock then 5671 else 5672).
Proof.
  cbn. eexists. split; [reflexivity|]. cbn.
  split; [apply bool_decide_eq_true|].
  split; [reflexivity|].
  split; [case_decide; [discriminate | assumption]|].
  split; [intros Hh; rewrite decide_True by exact Hh; reflexivity|].
  split; [intros Hh; rewrite decide_False by exact Hh; reflexivity|].
  split; [|split].
  - destruct (url_port u) as [n|]; [case_decide|];
      try assumption; destruct (bool_decide _); discriminate.
  - intros n -> Hn. rewrite decide_False by exact Hn. reflexivity.
  - intros [-> | ->]; reflexivity.
Qed.

End Composition.
